(** * NohLang: the interpretation engine of [noh_interpreter.py]

    A shallow embedding of the interpreter's core: the safe expression
    evaluator ([safe_eval], [_eval_node]), the scope stack of [Interpreter],
    the block executor ([execute_lines], [process_if], [process_while],
    [process_for], [process_func_def], [process_func_call],
    [process_return]), the call protocol of [Function.call] and the
    statement handlers that touch the scope stack.

    Conventions of the embedding.

    - A source line is represented by the first pattern of the interpreter
      that [fullmatch]es it after [remove_comments], together with the
      captured groups (type [line]).  The regular expressions themselves
      belong to Python's [re] module and are not re-implemented.  Of the
      entries of [single_commands], the type has those of print, declare,
      assign, output, delete, reset, exit and list sort; a line of any
      other entry is outside the programs considered here.
    - The text of an expression is represented by what [ast.parse] returns
      for it: [Some tree], or [None] when [ast.parse] raises.
    - The functions of Python's [operator] module that the three tables
      [allowed_operators], [allowed_unary_operators], [allowed_compare_ops]
      map to, subscripting, dictionary insertion and iteration over a [str]
      are library code: they are the fields of [PyOps], and every general
      theorem holds for any such runtime.
    - Exceptions are values of [exn]; a computation that may raise returns
      [result].  Loops and calls that may not terminate take fuel.
    - A dictionary display [ast.Dict(keys, values)] is kept as the list of
      its (key, value) pairs, a key being [None] for a [**] entry.
    - Values are immutable trees.  Lists and dictionaries are never updated
      in place by the statements modelled here (the collection, string,
      file, network and process handlers of the table are left out); a
      [Function] carries its closure by value.  In Python the captured
      frames of one function object are shared by all its calls, so an
      assignment a body makes to a captured name is still there at the
      next call; that sharing between calls is not modelled, and no
      statement below depends on it. *)

From Stdlib Require Import ZArith String List Bool Lia Floats PeanoNat.
Import ListNotations.
Set Warnings "-register-all".
Local Open Scope string_scope.
Local Open Scope list_scope.

(** ** Syntax trees of expressions (Python's [ast] nodes) *)

Inductive constant : Type :=
  | CNone
  | CBool (b : bool)
  | CInt (z : Z)
  | CFloat (f : float)
  | CStr (s : string).

(** [ast.operator]: the six whitelisted ones and the others the parser
    can produce. *)
Inductive operator : Type :=
  | Add | Sub | Mult | Div | Pow | Mod
  | FloorDiv | MatMult | LShift | RShift | BitOr | BitXor | BitAnd.

Inductive unaryop : Type := UAdd | USub | Not | Invert.

Inductive boolop : Type := And | Or.

Inductive cmpop : Type :=
  | Eq | NotEq | Lt | LtE | Gt | GtE
  | Is | IsNot | In | NotIn.

Inductive expr : Type :=
  | Constant (c : constant)
  | BinOp (left : expr) (op : operator) (right : expr)
  | UnaryOp (op : unaryop) (operand : expr)
  | BoolOp (op : boolop) (values : list expr)
  | Compare (left : expr) (ops : list cmpop) (comparators : list expr)
  | EList (elts : list expr)
  | ETuple (elts : list expr)
  | EDict (items : list (option expr * expr))
  | Subscript (value : expr) (slice : expr)
  | Name (id : string)
  | Attribute (value : expr) (attr : string)
  | Call (func : expr) (args : list expr)
  | OtherNode (kind : string).

(** The text of an expression, as [ast.parse(text, mode='eval')] sees it. *)
Definition source : Type := option expr.

(** ** Source lines, classified by the pattern that matches them *)

Inductive line : Type :=
  | LBlank
  | LIf (cond : source)
  | LElse
  | LEndIf
  | LWhile (cond : source)
  | LEndWhile
  | LFor (iter_var : string) (iterable : source)
  | LEndFor
  | LFuncDef (name : string) (params : list string)
  | LEndFunc
  | LFuncCall (name : string) (args : list source)
  | LBreak
  | LContinue
  | LReturn (e : option source)
  | LPrint (text : string)
  | LDeclare (name : string)
  | LAssign (name : string) (e : source)
  | LOutput (name : string)
  | LDeleteVar (name : string)
  | LReset
  | LListSort (name : string)
  | LExit
  | LUnknown (text : string).

(** ** Values *)

Inductive value : Type :=
  | VNone
  | VBool (b : bool)
  | VInt (z : Z)
  | VFloat (f : float)
  | VStr (s : string)
  | VList (items : list value)
  | VTuple (items : list value)
  | VDict (entries : list (value * value))
  | VBuiltin (name : string)
  | VFunction (params : list string) (block : list line)
              (closure : list (list (string * value))).

(** A frame is a Python [dict] from names to values, in insertion order. *)
Definition frame : Type := list (string * value).

Fixpoint frame_has (name : string) (f : frame) : bool :=
  match f with
  | [] => false
  | (k, _) :: f' => if String.eqb k name then true else frame_has name f'
  end.

Fixpoint frame_get (name : string) (f : frame) : option value :=
  match f with
  | [] => None
  | (k, v) :: f' => if String.eqb k name then Some v else frame_get name f'
  end.

(** [d[name] = v]: overwrite in place, or append a new key. *)
Fixpoint frame_set (name : string) (v : value) (f : frame) : frame :=
  match f with
  | [] => [(name, v)]
  | (k, w) :: f' =>
      if String.eqb k name then (k, v) :: f'
      else (k, w) :: frame_set name v f'
  end.

(** [del d[name]] *)
Fixpoint frame_del (name : string) (f : frame) : frame :=
  match f with
  | [] => []
  | (k, w) :: f' =>
      if String.eqb k name then f' else (k, w) :: frame_del name f'
  end.

(** Python's [bool(v)]. *)
Definition truthy (v : value) : bool :=
  match v with
  | VNone => false
  | VBool b => b
  | VInt z => negb (Z.eqb z 0)
  | VFloat f => negb (PrimFloat.eqb f 0%float)
  | VStr s => negb (String.eqb s "")
  | VList l => match l with [] => false | _ => true end
  | VTuple l => match l with [] => false | _ => true end
  | VDict d => match d with [] => false | _ => true end
  | VBuiltin _ => true
  | VFunction _ _ _ => true
  end.

Definition value_of_constant (c : constant) : value :=
  match c with
  | CNone => VNone
  | CBool b => VBool b
  | CInt z => VInt z
  | CFloat f => VFloat f
  | CStr s => VStr s
  end.

(** ** Exceptions and results *)

Inductive exn : Type :=
  | UnsupportedBinary (op : operator)
  | UnsupportedUnary (op : unaryop)
  | UnsupportedCompare (op : cmpop)
  | UnsupportedNode
  | Unassigned (id : string)
  | Undeclared (id : string)
  | OperatorRaised
  | ParseError
  | Unsafe (cause : exn).

Inductive result (A : Type) : Type :=
  | Ok (a : A)
  | Raise (e : exn).
Arguments Ok {A} a.
Arguments Raise {A} e.

Definition bind {A B : Type} (r : result A) (k : A -> result B) : result B :=
  match r with
  | Ok a => k a
  | Raise e => Raise e
  end.

Notation "x <- r ;; k" := (bind r (fun x => k))
  (at level 61, r at next level, right associativity).

Definition lift {A : Type} (o : option A) : result A :=
  match o with
  | Some a => Ok a
  | None => Raise OperatorRaised
  end.

(** ** The Python runtime the evaluator calls into *)

Record PyOps : Type := {
  (** [op.add], [op.sub], [op.mul], [op.truediv], [op.pow], [op.mod];
      [None] when the call raises. *)
  py_binary : operator -> value -> value -> option value;
  (** [op.pos], [op.neg], [op.not_] *)
  py_unary : unaryop -> value -> option value;
  (** [op.eq], [op.ne], [op.lt], [op.le], [op.gt], [op.ge] *)
  py_compare : cmpop -> value -> value -> option value;
  (** [container[index]] *)
  py_getitem : value -> value -> option value;
  (** [d[k] = v] while a dictionary display is built; [None] for an
      unhashable key. *)
  py_dict_set : list (value * value) -> value -> value ->
                option (list (value * value));
  (** the items of [iter(s)] for a [str] *)
  py_str_iter : string -> list value;
  (** [sorted(lst)]; [None] when two items do not compare ([TypeError]) *)
  py_sorted : list value -> option (list value)
}.

(** ** The safe evaluator *)

Definition allowed_operators (op : operator) : bool :=
  match op with
  | Add | Sub | Mult | Div | Pow | Mod => true
  | _ => false
  end.

Definition allowed_unary_operators (op : unaryop) : bool :=
  match op with
  | UAdd | USub | Not => true
  | Invert => false
  end.

Definition allowed_compare_ops (op : cmpop) : bool :=
  match op with
  | Eq | NotEq | Lt | LtE | Gt | GtE => true
  | _ => false
  end.

Section Evaluator.

Variable py : PyOps.

(** [variables]: the dictionary handed to the evaluator.  It is the
    flattened [ChainMap] of the scope stack; the first binding of a name
    is the one the dictionary holds. *)
Variable variables : frame.

Fixpoint _eval_node (node : expr) : result value :=
  match node with
  | Constant c => Ok (value_of_constant c)
  | BinOp l op r =>
      left <- _eval_node l ;;
      right <- _eval_node r ;;
      if allowed_operators op then lift (py_binary py op left right)
      else Raise (UnsupportedBinary op)
  | UnaryOp op e =>
      operand <- _eval_node e ;;
      if allowed_unary_operators op then lift (py_unary py op operand)
      else Raise (UnsupportedUnary op)
  | BoolOp And vs =>
      (* all(_eval_node(v) for v in values): lazy, stops at a falsy one *)
      (fix all (vs : list expr) : result value :=
         match vs with
         | [] => Ok (VBool true)
         | v :: vs' =>
             x <- _eval_node v ;;
             if truthy x then all vs' else Ok (VBool false)
         end) vs
  | BoolOp Or vs =>
      (* any(...): lazy, stops at a truthy one *)
      (fix any (vs : list expr) : result value :=
         match vs with
         | [] => Ok (VBool false)
         | v :: vs' =>
             x <- _eval_node v ;;
             if truthy x then Ok (VBool true) else any vs'
         end) vs
  | Compare l ops comparators =>
      left <- _eval_node l ;;
      (fix chain (cs : list expr) (ops : list cmpop) (left : value)
         {struct cs} : result value :=
         match ops, cs with
         | op_node :: ops', comparator :: cs' =>
             comp <- _eval_node comparator ;;
             if allowed_compare_ops op_node then
               r <- lift (py_compare py op_node left comp) ;;
               if truthy r then chain cs' ops' comp else Ok (VBool false)
             else Raise (UnsupportedCompare op_node)
         | _, _ => Ok (VBool true)
         end) comparators ops left
  | EList elts =>
      items <- (fix each (es : list expr) : result (list value) :=
                  match es with
                  | [] => Ok []
                  | e :: es' =>
                      x <- _eval_node e ;; xs <- each es' ;; Ok (x :: xs)
                  end) elts ;;
      Ok (VList items)
  | ETuple elts =>
      items <- (fix each (es : list expr) : result (list value) :=
                  match es with
                  | [] => Ok []
                  | e :: es' =>
                      x <- _eval_node e ;; xs <- each es' ;; Ok (x :: xs)
                  end) elts ;;
      Ok (VTuple items)
  | EDict items =>
      (* {_eval_node(k): _eval_node(v) for k, v in zip(keys, values)} *)
      d <- (fix build (kvs : list (option expr * expr))
              (d : list (value * value)) {struct kvs}
              : result (list (value * value)) :=
              match kvs with
              | [] => Ok d
              | (k, v) :: kvs' =>
                  key <- match k with
                         | Some ke => _eval_node ke
                         | None => Raise UnsupportedNode
                         end ;;
                  val <- _eval_node v ;;
                  d' <- lift (py_dict_set py d key val) ;;
                  build kvs' d'
              end) items [] ;;
      Ok (VDict d)
  | Subscript v s =>
      container <- _eval_node v ;;
      index <- _eval_node s ;;
      lift (py_getitem py container index)
  | Name id =>
      if frame_has id variables then
        match frame_get id variables with
        | Some VNone | None => Raise (Unassigned id)
        | Some value => Ok value
        end
      else Raise (Undeclared id)
  | Attribute _ _ | Call _ _ | OtherNode _ => Raise UnsupportedNode
  end.

(** [safe_eval]: every exception, the parser's included, leaves as the
    one "unsafe expression" error.  [AST_CACHE] memoises the tree of a
    text; the text is already given by its tree here. *)
Definition safe_eval (expression : source) : result value :=
  match expression with
  | None => Raise (Unsafe ParseError)
  | Some tree =>
      match _eval_node tree with
      | Ok v => Ok v
      | Raise e => Raise (Unsafe e)
      end
  end.

End Evaluator.

(** ** Interpreter state and the diagnostic sink *)

(** Non-local exits: the three exception classes of the interpreter,
    [SystemExit], which [sys.exit] raises, and the [TypeError] Python
    raises when a [for] iterates over the class [str] or when [sorted]
    meets items that do not compare. *)
Inductive signal : Type :=
  | BreakException
  | ContinueException
  | ReturnException (v : value)
  | SystemExit
  | TypeError.

(** What is handed to [eungdi], before formatting. *)
Inductive message : Type :=
  | MText (s : string)
  | MStr (v : value)
  | MDeleted (name : string)
  | MSorted (name : string)
  | MResetDone
  | MExiting
  | MCallStart (params : list string) (args : list value)
  | MCallEnd (params : list string) (ret : value)
  | EAlreadyDeclared (name : string)
  | ENotDeclared (name : string)
  | ENotInCurrentScope (name : string)
  | EGlobalScope
  | EEval (e : exn)
  | EArity (expected given : nat)
  | ENotFunction (name : string)
  | ENotIterable
  | ENotList (name : string)
  | EParseFailed
  | EUnknownCommand (l : line)
  | ERuntime (s : signal).

Record entry : Type := {
  at_line : option nat;
  is_error : bool;
  text : message
}.

Record Interpreter : Type := {
  scopes : list frame;
  current_line : option nat;
  debug : bool;
  fast : bool;
  log : list entry
}.

Definition set_scopes (s : list frame) (it : Interpreter) : Interpreter :=
  {| scopes := s; current_line := current_line it; debug := debug it;
     fast := fast it; log := log it |}.

Definition set_current_line (n : option nat) (it : Interpreter)
  : Interpreter :=
  {| scopes := scopes it; current_line := n; debug := debug it;
     fast := fast it; log := log it |}.

(** [eungdi]: under [fast] only errors are emitted. *)
Definition eungdi (m : message) (error : bool) (it : Interpreter)
  : Interpreter :=
  if fast it && negb error then it
  else {| scopes := scopes it; current_line := current_line it;
          debug := debug it; fast := fast it;
          log := log it ++ [{| at_line := current_line it;
                               is_error := error; text := m |}] |}.

Definition builtin_names : list string :=
  ["sqrt"; "sin"; "cos"; "tan"; "max"; "min"; "abs"; "round"; "int"; "str";
   "len"; "log"; "exp"; "현재시간"; "현재날짜"; "JSON변환"; "JSON문자열화"].

Definition builtins : frame := map (fun n => (n, VBuiltin n)) builtin_names.

(** [Interpreter.__init__] *)
Definition init (debug fast : bool) : Interpreter :=
  {| scopes := [builtins]; current_line := None; debug := debug;
     fast := fast; log := [] |}.

(** ** The scope stack: index 0 first, the current scope last *)

Definition current_scope (it : Interpreter) : frame := last (scopes it) [].

(** Replace the dictionary at index -1. *)
Definition update_current_scope (f : frame) (it : Interpreter)
  : Interpreter :=
  set_scopes (removelast (scopes it) ++ [f]) it.

Definition push_scope (it : Interpreter) : Interpreter :=
  set_scopes (scopes it ++ [[]]) it.

Definition pop_scope (it : Interpreter) : Interpreter :=
  if Nat.ltb 1 (List.length (scopes it)) then set_scopes (removelast (scopes it)) it
  else eungdi EGlobalScope true it.

(** The [ChainMap] over the reversed stack: innermost frame first. *)
Definition get_combined_scope (it : Interpreter) : frame :=
  concat (rev (scopes it)).

Definition declare_variable (var_name : string) (it : Interpreter)
  : Interpreter :=
  if frame_has var_name (current_scope it)
  then eungdi (EAlreadyDeclared var_name) true it
  else update_current_scope (frame_set var_name VNone (current_scope it)) it.

(** The loop of [assign_variable] over [reversed(self.scopes)]: [rs] is the
    stack innermost first. *)
Fixpoint assign_nearest (var_name : string) (v : value) (rs : list frame)
  : option (list frame) :=
  match rs with
  | [] => None
  | scope :: rs' =>
      if frame_has var_name scope
      then Some (frame_set var_name v scope :: rs')
      else option_map (cons scope) (assign_nearest var_name v rs')
  end.

Definition assign_variable (var_name : string) (v : value)
  (it : Interpreter) : Interpreter :=
  match assign_nearest var_name v (rev (scopes it)) with
  | Some rs => set_scopes (rev rs) it
  | None => eungdi (ENotDeclared var_name) true it
  end.

Fixpoint lookup_nearest (var_name : string) (rs : list frame)
  : option value :=
  match rs with
  | [] => None
  | scope :: rs' =>
      if frame_has var_name scope then frame_get var_name scope
      else lookup_nearest var_name rs'
  end.

Definition get_variable (var_name : string) (it : Interpreter)
  : value * Interpreter :=
  match lookup_nearest var_name (rev (scopes it)) with
  | Some v => (v, it)
  | None => (VNone, eungdi (ENotDeclared var_name) true it)
  end.

(** ** Statement handlers *)

Inductive outcome (A : Type) : Type :=
  | Done (a : A) (it : Interpreter)
  | Raised (s : signal) (it : Interpreter)
  | OutOfFuel.
Arguments Done {A} a it.
Arguments Raised {A} s it.
Arguments OutOfFuel {A}.

Section Handlers.

Variable py : PyOps.

Definition evaluate_expression (expression : source) (it : Interpreter)
  : value * Interpreter :=
  match safe_eval py (get_combined_scope it) expression with
  | Ok v => (v, it)
  | Raise e => (VNone, eungdi (EEval e) true it)
  end.

Definition handle_print (text : string) (it : Interpreter) : Interpreter :=
  eungdi (MText text) false it.

Definition handle_declare (name : string) (it : Interpreter)
  : Interpreter :=
  declare_variable name it.

Definition handle_assign (name : string) (e : source) (it : Interpreter)
  : Interpreter :=
  let (v, it1) := evaluate_expression e it in
  match v with
  | VNone => it1
  | _ => assign_variable name v it1
  end.

Definition handle_output (name : string) (it : Interpreter)
  : Interpreter :=
  let (v, it1) := get_variable name it in
  eungdi (MStr v) false it1.

Definition handle_delete_var (var_name : string) (it : Interpreter)
  : Interpreter :=
  if frame_has var_name (current_scope it)
  then eungdi (MDeleted var_name) false
         (update_current_scope (frame_del var_name (current_scope it)) it)
  else eungdi (ENotInCurrentScope var_name) true it.

Definition handle_reset (it : Interpreter) : Interpreter :=
  eungdi MResetDone false (set_scopes [hd [] (scopes it)] it).

Definition handle_exit (it : Interpreter) : outcome unit :=
  Raised SystemExit (eungdi MExiting false it).

(** [sorted] is called outside any [try]: its [TypeError] leaves the
    handler. *)
Definition handle_list_sort (var_name : string) (it : Interpreter)
  : outcome unit :=
  let (lst, it1) := get_variable var_name it in
  match lst with
  | VList items =>
      match py_sorted py items with
      | Some sorted_list =>
          Done tt (eungdi (MSorted var_name) false
                     (assign_variable var_name (VList sorted_list) it1))
      | None => Raised TypeError it1
      end
  | _ => Done tt (eungdi (ENotList var_name) true it1)
  end.

(** [interpret_line]: the entries of the table [single_commands] that
    the type [line] has.  The openers and closers of blocks, [break],
    [continue] and [return] have no entry in the table. *)
Definition interpret_line (l : line) (it : Interpreter) : outcome unit :=
  match l with
  | LBlank => Done tt it
  | LPrint text => Done tt (handle_print text it)
  | LDeclare name => Done tt (handle_declare name it)
  | LAssign name e => Done tt (handle_assign name e it)
  | LOutput name => Done tt (handle_output name it)
  | LDeleteVar name => Done tt (handle_delete_var name it)
  | LReset => Done tt (handle_reset it)
  | LListSort name => handle_list_sort name it
  | LExit => handle_exit it
  | _ => Done tt (eungdi (EUnknownCommand l) true it)
  end.

End Handlers.

(** ** Block delimitation

    Each scanner is the [while i < len(lines)] loop of its [process_*]
    method; [rest] is [lines[i:]].  It returns the index where the loop
    stopped together with the collected block(s). *)

Definition is_if (l : line) : bool :=
  match l with LIf _ => true | _ => false end.
Definition is_else (l : line) : bool :=
  match l with LElse => true | _ => false end.
Definition is_end_if (l : line) : bool :=
  match l with LEndIf => true | _ => false end.
Definition is_while (l : line) : bool :=
  match l with LWhile _ => true | _ => false end.
Definition is_end_while (l : line) : bool :=
  match l with LEndWhile => true | _ => false end.
Definition is_end_for (l : line) : bool :=
  match l with LEndFor => true | _ => false end.
Definition is_func_def (l : line) : bool :=
  match l with LFuncDef _ _ => true | _ => false end.
Definition is_end_func (l : line) : bool :=
  match l with LEndFunc => true | _ => false end.

Fixpoint scan_if (rest : list line) (i : nat) (in_else : bool)
  (nested_if : nat) (if_block else_block : list line)
  : nat * list line * list line :=
  match rest with
  | [] => (i, if_block, else_block)
  | curr_line :: rest' =>
      let collect nested :=
        if in_else
        then scan_if rest' (S i) in_else nested if_block
               (else_block ++ [curr_line])
        else scan_if rest' (S i) in_else nested (if_block ++ [curr_line])
               else_block in
      if is_if curr_line then collect (S nested_if)
      else if is_end_if curr_line then
        match nested_if with
        | S n => collect n
        | O => (i, if_block, else_block)
        end
      else if is_else curr_line && Nat.eqb nested_if 0 then
        scan_if rest' (S i) true nested_if if_block else_block
      else collect nested_if
  end.

Fixpoint scan_while (rest : list line) (i : nat) (nested_while : nat)
  (block : list line) : nat * list line :=
  match rest with
  | [] => (i, block)
  | curr_line :: rest' =>
      if is_while curr_line then
        scan_while rest' (S i) (S nested_while) (block ++ [curr_line])
      else if is_end_while curr_line then
        match nested_while with
        | S n => scan_while rest' (S i) n (block ++ [curr_line])
        | O => (i, block)
        end
      else scan_while rest' (S i) nested_while (block ++ [curr_line])
  end.

(** The scan of [process_for] keeps no nesting counter. *)
Fixpoint scan_for (rest : list line) (i : nat) (block : list line)
  : nat * list line :=
  match rest with
  | [] => (i, block)
  | curr_line :: rest' =>
      if is_end_for curr_line then (i, block)
      else scan_for rest' (S i) (block ++ [curr_line])
  end.

Fixpoint scan_func (rest : list line) (i : nat) (nested_func : nat)
  (block : list line) : nat * list line :=
  match rest with
  | [] => (i, block)
  | curr_line :: rest' =>
      if is_func_def curr_line then
        scan_func rest' (S i) (S nested_func) (block ++ [curr_line])
      else if is_end_func curr_line then
        match nested_func with
        | S n => scan_func rest' (S i) n (block ++ [curr_line])
        | O => (i, block)
        end
      else scan_func rest' (S i) nested_func (block ++ [curr_line])
  end.

(** What a [for] finds in the value it is given. *)
Inductive iteration : Type :=
  | NotIterable
  | Items (items : list value)
  | IterationRaises.

(** ** The block executor *)

Section Executor.

Variable py : PyOps.

(** What [hasattr(v, '__iter__')] accepts, with what
    [for item in v] then does.  Of the builtins of frame 0 only the class
    [str] has the attribute (it is the method of its instances), and
    iterating over the class raises [TypeError]. *)
Definition iter_items (v : value) : iteration :=
  match v with
  | VList l | VTuple l => Items l
  | VDict d => Items (map fst d)
  | VStr s => Items (py_str_iter py s)
  | VBuiltin name =>
      if String.eqb name "str" then IterationRaises else NotIterable
  | _ => NotIterable
  end.

(** The entry of [Function.call] once the arity is right: the debug
    note, the stack [closure + [{}]] installed, each parameter bound in
    the fresh frame. *)
Definition enter_call (params : list string) (closure : list frame)
  (args : list value) (it : Interpreter) : Interpreter :=
  let it1 :=
    if debug it then eungdi (MCallStart params args) false it else it in
  let it2 := set_scopes (closure ++ [[]]) it1 in
  fold_left
    (fun acc pa =>
       update_current_scope
         (frame_set (fst pa) (snd pa) (current_scope acc)) acc)
    (combine params args) it2.

Section Body.

(** [self.execute_lines], as the methods below call it. *)
Variable exec : list line -> nat -> Interpreter -> outcome nat.

(** [Function.call].  The closure is a value here: what the body writes
    into the captured frames is seen until the call returns and is not
    kept for the next call, while the code keeps it in the frames the
    [Function] object shares between its calls. *)
Definition Function_call (params : list string) (block : list line)
  (closure : list frame) (args : list value) (it : Interpreter)
  : outcome value :=
  if negb (Nat.eqb (List.length args) (List.length params)) then
    Done VNone
      (eungdi (EArity (List.length params) (List.length args)) true it)
  else
    let old_scopes := scopes it in
    let finish (ret_value : value) (it1 : Interpreter) :=
      let it2 := set_scopes old_scopes it1 in
      Done ret_value
        (if debug it2 then eungdi (MCallEnd params ret_value) false it2
         else it2) in
    match exec block 0 (enter_call params closure args it) with
    | Done _ it1 => finish VNone it1
    | Raised (ReturnException v) it1 => finish v it1
    | Raised s it1 => Raised s it1
    | OutOfFuel => OutOfFuel
    end.

Definition process_if (lines : list line) (index : nat)
  (it : Interpreter) : outcome nat :=
  match nth_error lines index with
  | Some (LIf condition_expr) =>
      let (condition_value, it1) :=
        evaluate_expression py condition_expr it in
      let '(i, if_block, else_block) :=
        scan_if (skipn (S index) lines) (S index) false 0 [] [] in
      let it2 := push_scope it1 in
      match exec (if truthy condition_value then if_block
                  else else_block) 0 it2 with
      | Done _ it3 => Done (S i) (pop_scope it3)
      | Raised s it3 => Raised s it3
      | OutOfFuel => OutOfFuel
      end
  | _ => Done (S index) (eungdi EParseFailed true it)
  end.

(** The [while self.evaluate_expression(condition_expr)] loop. *)
Fixpoint while_loop (fuel : nat) (condition_expr : source)
  (block : list line) (it : Interpreter) : outcome unit :=
  match fuel with
  | O => OutOfFuel
  | S fuel' =>
      let (c, it1) := evaluate_expression py condition_expr it in
      if truthy c then
        let it2 := push_scope it1 in
        match exec block 0 it2 with
        | Done _ it3 =>
            while_loop fuel' condition_expr block (pop_scope it3)
        | Raised ContinueException it3 =>
            while_loop fuel' condition_expr block (pop_scope it3)
        | Raised BreakException it3 => Done tt (pop_scope it3)
        | Raised s it3 => Raised s it3
        | OutOfFuel => OutOfFuel
        end
      else Done tt it1
  end.

Definition process_while (fuel : nat) (lines : list line) (index : nat)
  (it : Interpreter) : outcome nat :=
  match nth_error lines index with
  | Some (LWhile condition_expr) =>
      let (i, block) := scan_while (skipn (S index) lines) (S index) 0 []
      in
      match while_loop fuel condition_expr block it with
      | Done _ it1 => Done (S i) it1
      | Raised s it1 => Raised s it1
      | OutOfFuel => OutOfFuel
      end
  | _ => Done (S index) (eungdi EParseFailed true it)
  end.

(** The [for item in iterable_value] loop. *)
Fixpoint for_loop (iter_var : string) (block : list line)
  (items : list value) (it : Interpreter) : outcome unit :=
  match items with
  | [] => Done tt it
  | item :: items' =>
      let it1 := push_scope it in
      let it2 := declare_variable iter_var it1 in
      let it3 := assign_variable iter_var item it2 in
      match exec block 0 it3 with
      | Done _ it4 => for_loop iter_var block items' (pop_scope it4)
      | Raised ContinueException it4 =>
          for_loop iter_var block items' (pop_scope it4)
      | Raised BreakException it4 => Done tt (pop_scope it4)
      | Raised s it4 => Raised s it4
      | OutOfFuel => OutOfFuel
      end
  end.

Definition process_for (lines : list line) (index : nat)
  (it : Interpreter) : outcome nat :=
  match nth_error lines index with
  | Some (LFor iter_var iterable_expr) =>
      let (iterable_value, it1) :=
        evaluate_expression py iterable_expr it in
      match iter_items iterable_value with
      | NotIterable => Done (S index) (eungdi ENotIterable true it1)
      | IterationRaises => Raised TypeError it1
      | Items items =>
          let (i, block) := scan_for (skipn (S index) lines) (S index) []
          in
          match for_loop iter_var block items it1 with
          | Done _ it2 => Done (S i) it2
          | Raised s it2 => Raised s it2
          | OutOfFuel => OutOfFuel
          end
      end
  | _ => Done (S index) (eungdi EParseFailed true it)
  end.

(** [copy.deepcopy(self.scopes)] is the stack itself: values are
    immutable trees. *)
Definition process_func_def (lines : list line) (index : nat)
  (it : Interpreter) : nat * Interpreter :=
  match nth_error lines index with
  | Some (LFuncDef func_name params) =>
      let (i, block) := scan_func (skipn (S index) lines) (S index) 0 []
      in
      let closure := scopes it in
      let func_obj := VFunction params block closure in
      let it1 := declare_variable func_name it in
      (S i, assign_variable func_name func_obj it1)
  | _ => (S index, eungdi EParseFailed true it)
  end.

(** [[self.evaluate_expression(arg) for arg in args_expr]] *)
Fixpoint evaluate_args (args_expr : list source) (it : Interpreter)
  : list value * Interpreter :=
  match args_expr with
  | [] => ([], it)
  | arg :: rest =>
      let (v, it1) := evaluate_expression py arg it in
      let (vs, it2) := evaluate_args rest it1 in
      (v :: vs, it2)
  end.

Definition process_func_call (l : line) (it : Interpreter)
  : outcome unit :=
  match l with
  | LFuncCall func_name args_expr =>
      let (args_values, it1) := evaluate_args args_expr it in
      let (func_obj, it2) := get_variable func_name it1 in
      match func_obj with
      | VFunction params block closure =>
          match Function_call params block closure args_values it2 with
          | Done _ it3 => Done tt it3
          | Raised s it3 => Raised s it3
          | OutOfFuel => OutOfFuel
          end
      | _ => Done tt (eungdi (ENotFunction func_name) true it2)
      end
  | _ => Done tt (eungdi EParseFailed true it)
  end.

(** [process_return] always leaves by [ReturnException]. *)
Definition process_return (l : line) (it : Interpreter)
  : outcome unit :=
  match l with
  | LReturn (Some expr) =>
      let (ret_val, it1) := evaluate_expression py expr it in
      Raised (ReturnException ret_val) it1
  | LReturn None => Raised (ReturnException VNone) it
  | _ => Done tt (eungdi EParseFailed true it)
  end.

End Body.

(** [execute_lines]: one unit of fuel per turn of the loop. *)
Fixpoint execute_lines (fuel : nat) (lines : list line) (i : nat)
  (it : Interpreter) : outcome nat :=
  match fuel with
  | O => OutOfFuel
  | S fuel' =>
      match nth_error lines i with
      | None => Done i it
      | Some l =>
          let it1 := set_current_line (Some (i + 1)) it in
          let exec := execute_lines fuel' in
          match l with
          | LBlank => execute_lines fuel' lines (S i) it1
          | LIf _ =>
              match process_if exec lines i it1 with
              | Done j it2 => execute_lines fuel' lines j it2
              | r => r
              end
          | LWhile _ =>
              match process_while exec fuel' lines i it1 with
              | Done j it2 => execute_lines fuel' lines j it2
              | r => r
              end
          | LFor _ _ =>
              match process_for exec lines i it1 with
              | Done j it2 => execute_lines fuel' lines j it2
              | r => r
              end
          | LFuncDef _ _ =>
              let (j, it2) := process_func_def lines i it1 in
              execute_lines fuel' lines j it2
          | LFuncCall _ _ =>
              match process_func_call exec l it1 with
              | Done _ it2 => execute_lines fuel' lines (S i) it2
              | Raised s it2 => Raised s it2
              | OutOfFuel => OutOfFuel
              end
          | LBreak => Raised BreakException it1
          | LContinue => Raised ContinueException it1
          | LReturn _ =>
              match process_return l it1 with
              | Done _ it2 =>
                  match interpret_line py l it2 with
                  | Done _ it3 => execute_lines fuel' lines (S i) it3
                  | Raised s it3 => Raised s it3
                  | OutOfFuel => OutOfFuel
                  end
              | Raised s it2 => Raised s it2
              | OutOfFuel => OutOfFuel
              end
          | _ =>
              match interpret_line py l it1 with
              | Done _ it2 => execute_lines fuel' lines (S i) it2
              | Raised s it2 => Raised s it2
              | OutOfFuel => OutOfFuel
              end
          end
      end
  end.

(** [interpret_program]: [except Exception] catches the three signals;
    [SystemExit] is not an [Exception] and passes. *)
Definition interpret_program (fuel : nat) (program : list line)
  (it : Interpreter) : outcome unit :=
  match execute_lines fuel program 0 it with
  | Done _ it1 => Done tt (set_current_line None it1)
  | Raised SystemExit it1 => Raised SystemExit it1
  | Raised s it1 =>
      Done tt (set_current_line None (eungdi (ERuntime s) true it1))
  | OutOfFuel => OutOfFuel
  end.

End Executor.

(** ** A runtime for integer and string operands

    The concrete programs below are run on this runtime.  It gives the
    operators on [int] and [str] operands, subscripting of lists and tuples
    by an [int], dictionary keys that are [int] or [str], and the sorting
    of lists of [int]s; every other application is outside it and given
    as raising. *)

Definition core_binary (op : operator) (a b : value) : option value :=
  match op, a, b with
  | Add, VInt x, VInt y => Some (VInt (x + y))
  | Sub, VInt x, VInt y => Some (VInt (x - y))
  | Mult, VInt x, VInt y => Some (VInt (x * y))
  | Mod, VInt x, VInt y =>
      if Z.eqb y 0 then None else Some (VInt (Z.modulo x y))
  | Pow, VInt x, VInt y =>
      if Z.ltb y 0 then None else Some (VInt (Z.pow x y))
  | Add, VStr x, VStr y => Some (VStr (x ++ y))
  | _, _, _ => None
  end.

Definition core_unary (op : unaryop) (a : value) : option value :=
  match op, a with
  | UAdd, VInt x => Some (VInt x)
  | USub, VInt x => Some (VInt (- x))
  | Not, _ => Some (VBool (negb (truthy a)))
  | _, _ => None
  end.

Definition core_compare (op : cmpop) (a b : value) : option value :=
  match op, a, b with
  | Eq, VInt x, VInt y => Some (VBool (Z.eqb x y))
  | NotEq, VInt x, VInt y => Some (VBool (negb (Z.eqb x y)))
  | Lt, VInt x, VInt y => Some (VBool (Z.ltb x y))
  | LtE, VInt x, VInt y => Some (VBool (Z.leb x y))
  | Gt, VInt x, VInt y => Some (VBool (Z.gtb x y))
  | GtE, VInt x, VInt y => Some (VBool (Z.geb x y))
  | Eq, VStr x, VStr y => Some (VBool (String.eqb x y))
  | NotEq, VStr x, VStr y => Some (VBool (negb (String.eqb x y)))
  | _, _, _ => None
  end.

Definition core_getitem (container index : value) : option value :=
  match container, index with
  | VList l, VInt i | VTuple l, VInt i =>
      let n := Z.of_nat (List.length l) in
      if Z.leb 0 i then nth_error l (Z.to_nat i)
      else if Z.leb (- n) i then nth_error l (Z.to_nat (n + i))
      else None
  | _, _ => None
  end.

Definition core_key_eqb (a b : value) : bool :=
  match a, b with
  | VInt x, VInt y => Z.eqb x y
  | VStr x, VStr y => String.eqb x y
  | _, _ => false
  end.

Fixpoint core_dict_put (d : list (value * value)) (k v : value)
  : list (value * value) :=
  match d with
  | [] => [(k, v)]
  | (k', v') :: d' =>
      if core_key_eqb k' k then (k', v) :: d'
      else (k', v') :: core_dict_put d' k v
  end.

Definition core_dict_set (d : list (value * value)) (k v : value)
  : option (list (value * value)) :=
  match k with
  | VInt _ | VStr _ => Some (core_dict_put d k v)
  | _ => None
  end.

Fixpoint core_str_iter (s : string) : list value :=
  match s with
  | EmptyString => []
  | String c s' => VStr (String c EmptyString) :: core_str_iter s'
  end.

Fixpoint core_insert (x : Z) (sorted : list Z) : list Z :=
  match sorted with
  | [] => [x]
  | y :: rest => if Z.leb x y then x :: sorted else y :: core_insert x rest
  end.

Fixpoint core_ints (items : list value) : option (list Z) :=
  match items with
  | [] => Some []
  | VInt z :: rest => option_map (cons z) (core_ints rest)
  | _ => None
  end.

(** [sorted] of a list of [int]s. *)
Definition core_sorted (items : list value) : option (list value) :=
  option_map (fun zs => map VInt (fold_right core_insert [] zs))
    (core_ints items).

Definition py_core : PyOps :=
  {| py_binary := core_binary;
     py_unary := core_unary;
     py_compare := core_compare;
     py_getitem := core_getitem;
     py_dict_set := core_dict_set;
     py_str_iter := core_str_iter;
     py_sorted := core_sorted |}.

(** Readable syntax for the programs below. *)
Definition int (z : Z) : expr := Constant (CInt z).
Definition true_ : expr := Constant (CBool true).
Definition false_ : expr := Constant (CBool false).
Definition src (e : expr) : source := Some e.

(** The state an execution ends in, and what it wrote to the sink. *)
Definition final {A : Type} (o : outcome A) : option Interpreter :=
  match o with
  | Done _ it => Some it
  | Raised _ it => Some it
  | OutOfFuel => None
  end.

Definition depth (it : Interpreter) : nat := List.length (scopes it).

Definition texts (it : Interpreter) : list message := map text (log it).

(** Where an unsupported node or operator is certain to be reached: at any
    position but the later operands of [and]/[or] and the later comparators
    of a comparison chain, which are evaluated only when the earlier ones
    let the evaluation go on. *)
Fixpoint reaches_unsupported (e : expr) : bool :=
  match e with
  | Constant _ | Name _ => false
  | BinOp l op r =>
      reaches_unsupported l || reaches_unsupported r
      || negb (allowed_operators op)
  | UnaryOp op x => reaches_unsupported x || negb (allowed_unary_operators op)
  | BoolOp _ vs =>
      match vs with
      | v :: _ => reaches_unsupported v
      | [] => false
      end
  | Compare l ops cs =>
      reaches_unsupported l
      || match ops, cs with
         | op :: _, c :: _ =>
             reaches_unsupported c || negb (allowed_compare_ops op)
         | _, _ => false
         end
  | EList es | ETuple es => existsb reaches_unsupported es
  | EDict items =>
      existsb (fun kv =>
                 match fst kv with
                 | Some k => reaches_unsupported k
                 | None => true
                 end || reaches_unsupported (snd kv)) items
  | Subscript v s => reaches_unsupported v || reaches_unsupported s
  | Attribute _ _ | Call _ _ | OtherNode _ => true
  end.

(** ** An induction principle for [expr] that reaches into the lists *)

Section ExprInduction.

Variable P : expr -> Prop.

Hypothesis HConstant : forall c, P (Constant c).
Hypothesis HBinOp : forall l op r, P l -> P r -> P (BinOp l op r).
Hypothesis HUnaryOp : forall op x, P x -> P (UnaryOp op x).
Hypothesis HBoolOp : forall op vs, Forall P vs -> P (BoolOp op vs).
Hypothesis HCompare :
  forall l ops cs, P l -> Forall P cs -> P (Compare l ops cs).
Hypothesis HList : forall es, Forall P es -> P (EList es).
Hypothesis HTuple : forall es, Forall P es -> P (ETuple es).
Hypothesis HDict :
  forall items,
    Forall (fun kv =>
              match fst kv with Some k => P k | None => True end
              /\ P (snd kv)) items ->
    P (EDict items).
Hypothesis HSubscript : forall v s, P v -> P s -> P (Subscript v s).
Hypothesis HName : forall id, P (Name id).
Hypothesis HAttribute : forall v a, P (Attribute v a).
Hypothesis HCall : forall f args, P (Call f args).
Hypothesis HOther : forall k, P (OtherNode k).

Fixpoint expr_nested_ind (e : expr) : P e :=
  let all :=
    fix all (es : list expr) : Forall P es :=
      match es with
      | [] => Forall_nil P
      | x :: es' => Forall_cons x (expr_nested_ind x) (all es')
      end in
  match e with
  | Constant c => HConstant c
  | BinOp l op r => HBinOp l op r (expr_nested_ind l) (expr_nested_ind r)
  | UnaryOp op x => HUnaryOp op x (expr_nested_ind x)
  | BoolOp op vs => HBoolOp op vs (all vs)
  | Compare l ops cs => HCompare l ops cs (expr_nested_ind l) (all cs)
  | EList es => HList es (all es)
  | ETuple es => HTuple es (all es)
  | EDict items =>
      HDict items
        ((fix pairs (kvs : list (option expr * expr)) :=
            match kvs return
              Forall (fun kv =>
                        match fst kv with Some k => P k | None => True end
                        /\ P (snd kv)) kvs
            with
            | [] => Forall_nil _
            | (k, v) :: kvs' =>
                Forall_cons (k, v)
                  (conj
                     match k return
                       match k with Some k' => P k' | None => True end
                     with
                     | Some k' => expr_nested_ind k'
                     | None => I
                     end
                     (expr_nested_ind v))
                  (pairs kvs')
            end) items)
  | Subscript v s => HSubscript v s (expr_nested_ind v) (expr_nested_ind s)
  | Name id => HName id
  | Attribute v a => HAttribute v a
  | Call f args => HCall f args
  | OtherNode k => HOther k
  end.

End ExprInduction.

(** The loops inside [_eval_node], under names. *)
Section EvaluatorLoops.

Variable py : PyOps.
Variable variables : frame.

Fixpoint eval_each (es : list expr) : result (list value) :=
  match es with
  | [] => Ok []
  | e :: es' =>
      x <- _eval_node py variables e ;; xs <- eval_each es' ;; Ok (x :: xs)
  end.

Fixpoint eval_build (kvs : list (option expr * expr))
  (d : list (value * value)) : result (list (value * value)) :=
  match kvs with
  | [] => Ok d
  | (k, v) :: kvs' =>
      key <- match k with
             | Some ke => _eval_node py variables ke
             | None => Raise UnsupportedNode
             end ;;
      val <- _eval_node py variables v ;;
      d' <- lift (py_dict_set py d key val) ;;
      eval_build kvs' d'
  end.

End EvaluatorLoops.

Definition raises {A : Type} (r : result A) : Prop :=
  exists e, r = Raise e.

(** What the whitelist is certain to reject: a text that does not parse, or
    a tree in which an unsupported node or operator is reached. *)
Definition rejected (expression : source) : bool :=
  match expression with
  | None => true
  | Some e => reaches_unsupported e
  end.

(** ** Programs used below *)

(** A [break] inside an [if] inside a [while]. *)
Definition prog_break_in_if : list line :=
  [ LWhile (src true_);
    LIf (src true_);
    LBreak;
    LEndIf;
    LEndWhile ].

(** The loop of the built-in test program, started at 10 so that [x]
    reaches 4. *)
Definition prog_count_down : list line :=
  [ LDeclare "x";
    LAssign "x" (src (int 10));
    LWhile (src (Compare (Name "x") [Gt] [int 0]));
    LAssign "x" (src (BinOp (Name "x") Sub (int 3)));
    LOutput "x";
    LIf (src (Compare (Name "x") [Eq] [int 4]));
    LBreak;
    LEndIf;
    LEndWhile ].

(** Scenario F of the specification. *)
Definition prog_snapshot : list line :=
  [ LDeclare "x";
    LAssign "x" (src (int 1));
    LFuncDef "f" [];
    LOutput "x";
    LEndFunc;
    LAssign "x" (src (int 2));
    LFuncCall "f" [] ].

Definition prog_top_break : list line :=
  [ LBreak; LPrint "after" ].

(** A function whose body is a bare [break], called from inside a loop. *)
Definition prog_break_in_call : list line :=
  [ LFuncDef "f" [];
    LBreak;
    LEndFunc;
    LWhile (src true_);
    LFuncCall "f" [];
    LPrint "unreached";
    LEndWhile;
    LPrint "after" ].

Definition prog_declare : list line := [ LDeclare "x" ].

(** An assignment that fails, a sort that raises, a [break], a print. *)
Definition prog_recover_then_raise : list line :=
  [ LAssign "x" (src (Name "nowhere"));
    LListSort "v";
    LBreak;
    LPrint "after" ].

(** A fresh interpreter in which [v] is the list [[1, "a"]]. *)
Definition state_unsortable : Interpreter :=
  set_scopes [builtins ++ [("v", VList [VInt 1; VStr "a"])]]
    (init false false).

(** Top-level programs that write to frame 0. *)
Definition prog_delete_builtin : list line := [ LDeleteVar "sqrt" ].

Definition prog_declare_reset : list line := [ LDeclare "x"; LReset ].

(** Two nested [for] loops. *)
Definition prog_nested_for : list line :=
  [ LFor "i" (src (EList [int 1; int 2]));
    LFor "j" (src (EList [int 7]));
    LOutput "j";
    LEndFor;
    LOutput "i";
    LEndFor ].

(** [False and f()] *)
Definition expr_guarded_call : expr :=
  BoolOp And [false_; Call (Name "f") []].

(** Among the lines of [line], those whose handler reports what goes
    wrong through [eungdi] and returns: print, declare, assign, output,
    delete, reset, the lines that match no entry of the table, and the
    blank lines [execute_lines] skips.  The list sort and [exit] are not
    among them. *)
Definition simple_statement (l : line) : bool :=
  match l with
  | LBlank | LPrint _ | LDeclare _ | LAssign _ _ | LOutput _
  | LDeleteVar _ | LReset | LUnknown _
  | LElse | LEndIf | LEndWhile | LEndFor | LEndFunc => true
  | _ => false
  end.

(** ** The lexical cleaner

    A line of text is the list of its characters, each a Unicode code
    point.  [str.strip] belongs to Python; what counts as whitespace is
    the parameter [isspace]. *)

Definition char : Type := N.

Definition quote : char := 39%N.
Definition dquote : char := 34%N.
Definition hash : char := 35%N.

(** The [while i < len(line)] loop of [remove_comments], from a given
    quoting state: what is appended to [result]. *)
Fixpoint keep_code (in_single in_double : bool) (line : list char)
  : list char :=
  match line with
  | [] => []
  | ch :: rest =>
      if N.eqb ch quote && negb in_double then
        ch :: keep_code (negb in_single) in_double rest
      else if N.eqb ch dquote && negb in_single then
        ch :: keep_code in_single (negb in_double) rest
      else if N.eqb ch hash && negb in_single && negb in_double then []
      else ch :: keep_code in_single in_double rest
  end.

Section Cleaner.

Variable isspace : char -> bool.

Fixpoint lstrip (s : list char) : list char :=
  match s with
  | [] => []
  | c :: s' => if isspace c then lstrip s' else s
  end.

Fixpoint rstrip (s : list char) : list char :=
  match s with
  | [] => []
  | c :: s' =>
      match rstrip s' with
      | [] => if isspace c then [] else [c]
      | kept => c :: kept
      end
  end.

Definition strip (s : list char) : list char := rstrip (lstrip s).

Definition remove_comments (line : list char) : list char :=
  strip (keep_code false false line).

End Cleaner.

(** A character that is neither a quote nor the comment sign. *)
Definition ordinary (c : char) : Prop :=
  c <> quote /\ c <> dquote /\ c <> hash.

(** The ASCII whitespace, and ASCII text as code points, for examples. *)
Definition ascii_space (c : char) : bool :=
  N.eqb c 32 || (N.leb 9 c && N.leb c 13).

Fixpoint codes (s : string) : list char :=
  match s with
  | EmptyString => []
  | String a s' => Ascii.N_of_ascii a :: codes s'
  end.

(** ** Nesting of blocks

    [nesting opener closer b depth] walks the lines of [b] as the scanners
    do, counting openers up and closers down: the depth reached at the end
    of [b], or [None] when a closer is met at depth 0. *)
Fixpoint nesting (opener closer : line -> bool) (b : list line)
  (depth : nat) : option nat :=
  match b with
  | [] => Some depth
  | l :: b' =>
      if opener l then nesting opener closer b' (S depth)
      else if closer l then
        match depth with
        | S n => nesting opener closer b' n
        | O => None
        end
      else nesting opener closer b' depth
  end.

(** The same for [if] blocks, where an [else] at depth 0 also ends the
    walk. *)
Fixpoint nesting_if (b : list line) (depth : nat) : option nat :=
  match b with
  | [] => Some depth
  | l :: b' =>
      if is_if l then nesting_if b' (S depth)
      else if is_end_if l then
        match depth with
        | S n => nesting_if b' n
        | O => None
        end
      else if is_else l && Nat.eqb depth 0 then None
      else nesting_if b' depth
  end.

(** ** Lines that raise no signal of their own

    Everything but [break], [continue], [return], [exit], a function call
    and [reset].  A [for] and a list sort are among them: they raise
    nothing but the [TypeError] of Python. *)
Definition calm (l : line) : bool :=
  match l with
  | LBreak | LContinue | LReturn _ | LExit | LFuncCall _ _ | LReset => false
  | _ => true
  end.

(** ** Saving and loading variables *)

(** [d.update(other)] *)
Definition dict_update (d other : frame) : frame :=
  fold_left (fun acc kv => frame_set (fst kv) (snd kv) acc) other d.

(** The dictionary [handle_save_vars] hands to [json.dump]: the frames
    above index 0, merged outermost first. *)
Definition user_vars (it : Interpreter) : frame :=
  fold_left dict_update (tl (scopes it)) [].

(** What [handle_load_vars] does to the stack once the file is read:
    [self.current_scope().update(loaded_vars)]. *)
Definition load_vars (loaded_vars : frame) (it : Interpreter) : Interpreter :=
  update_current_scope (dict_update (current_scope it) loaded_vars) it.

(** A frame as a [dict] has it: no key twice. *)
Definition well_formed (f : frame) : Prop := NoDup (map fst f).

(** ** What a run may do to the sink and the flags

    [grows it it']: from [it] to [it'] the two flags are the same and the
    log has only gained entries at its end, all of them errors when the
    interpreter is in fast mode. *)
Definition grows (it it' : Interpreter) : Prop :=
  debug it' = debug it
  /\ fast it' = fast it
  /\ exists added,
      log it' = log it ++ added
      /\ (fast it = true -> Forall (fun e => is_error e = true) added).

(** The loop of [_eval_node] over [zip(node.ops, node.comparators)]. *)
Section ComparisonChain.

Variable py : PyOps.
Variable variables : frame.

Fixpoint eval_chain (cs : list expr) (ops : list cmpop) (left : value)
  {struct cs} : result value :=
  match ops, cs with
  | op_node :: ops', comparator :: cs' =>
      comp <- _eval_node py variables comparator ;;
      if allowed_compare_ops op_node then
        r <- lift (py_compare py op_node left comp) ;;
        if truthy r then eval_chain cs' ops' comp else Ok (VBool false)
      else Raise (UnsupportedCompare op_node)
  | _, _ => Ok (VBool true)
  end.

End ComparisonChain.

(** * Properties *)

(** ** The evaluator *)

Section EvaluatorFacts.

Variable py : PyOps.
Variable variables : frame.

Local Abbreviation eval := (_eval_node py variables).

Lemma eval_and_cons v vs :
  eval (BoolOp And (v :: vs)) =
  (x <- eval v ;;
   if truthy x then eval (BoolOp And vs) else Ok (VBool false)).
Proof. reflexivity. Qed.

Lemma eval_or_cons v vs :
  eval (BoolOp Or (v :: vs)) =
  (x <- eval v ;;
   if truthy x then Ok (VBool true) else eval (BoolOp Or vs)).
Proof. reflexivity. Qed.

Lemma eval_list_each es :
  eval (EList es) = (items <- eval_each py variables es ;; Ok (VList items)).
Proof. reflexivity. Qed.

Lemma eval_tuple_each es :
  eval (ETuple es) =
  (items <- eval_each py variables es ;; Ok (VTuple items)).
Proof. reflexivity. Qed.

Lemma eval_dict_build items :
  eval (EDict items) =
  (d <- eval_build py variables items [] ;; Ok (VDict d)).
Proof. reflexivity. Qed.

Lemma bool_op_returns_bool op vs v :
  eval (BoolOp op vs) = Ok v -> exists b, v = VBool b.
Proof.
  destruct op; induction vs as [|x vs IH].
  - simpl. intros H. inversion H. eauto.
  - rewrite eval_and_cons. destruct (eval x) as [a|e]; simpl; [|discriminate].
    destruct (truthy a); [exact IH|]. intros H. inversion H. eauto.
  - simpl. intros H. inversion H. eauto.
  - rewrite eval_or_cons. destruct (eval x) as [a|e]; simpl; [|discriminate].
    destruct (truthy a); [|exact IH]. intros H. inversion H. eauto.
Qed.

Lemma eval_each_raises es :
  existsb reaches_unsupported es = true ->
  Forall (fun e => reaches_unsupported e = true -> raises (eval e)) es ->
  raises (eval_each py variables es).
Proof.
  induction es as [|e es IH]; simpl; [discriminate|].
  intros Hex Hall. inversion Hall as [|? ? He Hes]; subst.
  destruct (eval e) as [x|ex] eqn:Ee; simpl; [|eexists; reflexivity].
  destruct (reaches_unsupported e).
  - destruct (He eq_refl) as [ex Hx]. discriminate.
  - simpl in Hex. destruct (IH Hex Hes) as [ex Hx]. rewrite Hx. simpl.
    eexists; reflexivity.
Qed.

Lemma eval_build_raises items d :
  existsb (fun kv =>
             match fst kv with
             | Some k => reaches_unsupported k
             | None => true
             end || reaches_unsupported (snd kv)) items = true ->
  Forall (fun kv =>
            match fst kv with
            | Some k => reaches_unsupported k = true -> raises (eval k)
            | None => True
            end
            /\ (reaches_unsupported (snd kv) = true -> raises (eval (snd kv))))
    items ->
  raises (eval_build py variables items d).
Proof.
  revert d. induction items as [|[k v] items IH]; simpl; [discriminate|].
  intros d Hex Hall. inversion Hall as [|? ? [Hk Hv] Hrest]; subst.
  simpl in Hk, Hv.
  destruct k as [ke|]; [|eexists; reflexivity].
  destruct (eval ke) as [key|ex] eqn:Ek; simpl; [|eexists; reflexivity].
  destruct (reaches_unsupported ke).
  { destruct (Hk eq_refl) as [ex Hx]. discriminate. }
  destruct (eval v) as [val|ex] eqn:Ev; simpl; [|eexists; reflexivity].
  destruct (reaches_unsupported v).
  { destruct (Hv eq_refl) as [ex Hx]. discriminate. }
  simpl in Hex.
  destruct (py_dict_set py d key val); simpl; [|eexists; reflexivity].
  apply IH; assumption.
Qed.

Lemma reached_unsupported_raises e :
  reaches_unsupported e = true -> raises (eval e).
Proof.
  induction e using expr_nested_ind.
  - discriminate.
  - simpl. intros H.
    destruct (eval e1) as [a|ex] eqn:E1; simpl; [|eexists; reflexivity].
    destruct (reaches_unsupported e1).
    { destruct (IHe1 eq_refl) as [ex Hx]. discriminate. }
    destruct (eval e2) as [b|ex] eqn:E2; simpl; [|eexists; reflexivity].
    destruct (reaches_unsupported e2).
    { destruct (IHe2 eq_refl) as [ex Hx]. discriminate. }
    simpl in H. destruct (allowed_operators op); [discriminate|].
    eexists; reflexivity.
  - simpl. intros H.
    destruct (eval e) as [a|ex] eqn:E1; simpl; [|eexists; reflexivity].
    destruct (reaches_unsupported e).
    { destruct (IHe eq_refl) as [ex Hx]. discriminate. }
    simpl in H. destruct (allowed_unary_operators op); [discriminate|].
    eexists; reflexivity.
  - destruct vs as [|v vs]; [discriminate|].
    intros Hv. inversion H as [|? ? Pv _]; subst.
    destruct (Pv Hv) as [ex Hx].
    destruct op; [rewrite eval_and_cons | rewrite eval_or_cons];
      rewrite Hx; eexists; reflexivity.
  - simpl. intros Hr.
    destruct (eval e) as [a|ex] eqn:E1; simpl; [|eexists; reflexivity].
    destruct (reaches_unsupported e).
    { destruct (IHe eq_refl) as [ex Hx]. discriminate. }
    simpl in Hr. destruct ops as [|o ops]; [discriminate|].
    destruct cs as [|c cs]; [discriminate|].
    inversion H as [|? ? Pc _]; subst.
    destruct (eval c) as [b|ex] eqn:E2; simpl; [|eexists; reflexivity].
    destruct (reaches_unsupported c).
    { destruct (Pc eq_refl) as [ex Hx]. discriminate. }
    simpl in Hr. destruct (allowed_compare_ops o); [discriminate|].
    eexists; reflexivity.
  - intros Hr. rewrite eval_list_each.
    destruct (eval_each_raises es Hr H) as [ex Hx]. rewrite Hx.
    eexists; reflexivity.
  - intros Hr. rewrite eval_tuple_each.
    destruct (eval_each_raises es Hr H) as [ex Hx]. rewrite Hx.
    eexists; reflexivity.
  - intros Hr. rewrite eval_dict_build.
    assert (Hb : raises (eval_build py variables items [])).
    { apply eval_build_raises; [exact Hr|].
      eapply Forall_impl; [|exact H]. intros [k v]; simpl.
      destruct k; tauto. }
    destruct Hb as [ex Hx]. rewrite Hx. eexists; reflexivity.
  - simpl. intros H.
    destruct (eval e1) as [a|ex] eqn:E1; simpl; [|eexists; reflexivity].
    destruct (reaches_unsupported e1).
    { destruct (IHe1 eq_refl) as [ex Hx]. discriminate. }
    destruct (eval e2) as [b|ex] eqn:E2; simpl; [|eexists; reflexivity].
    destruct (reaches_unsupported e2).
    { destruct (IHe2 eq_refl) as [ex Hx]. discriminate. }
    discriminate.
  - discriminate.
  - intros _. eexists; reflexivity.
  - intros _. eexists; reflexivity.
  - intros _. eexists; reflexivity.
Qed.

End EvaluatorFacts.




(** C9.  Operands are evaluated from the left as long as they are
    truthy, for a conjunction, or falsy, for a disjunction.  The first
    operand that is not decides: the operands after it are not evaluated
    and have no part in the result, which is the truthiness of the
    deciding operand as a boolean, not its value.  When no operand
    decides, the result is [True] for a conjunction and [False] for a
    disjunction.  An operand that raises before any has decided makes
    the operation raise.  So the result is the truthiness of the
    conjunction or disjunction, and always a boolean. *)
Theorem C9_short_circuit_truthiness :
  forall (py : PyOps) (variables : frame) (op : boolop)
         (before : list expr),
    Forall (fun p => exists v,
                _eval_node py variables p = Ok v /\
                truthy v = match op with And => true | Or => false end)
           before ->
    _eval_node py variables (BoolOp op before)
    = Ok (VBool match op with And => true | Or => false end)
    /\ (forall (x : expr) (after : list expr) (vx : value),
          _eval_node py variables x = Ok vx ->
          truthy vx = match op with And => false | Or => true end ->
          _eval_node py variables (BoolOp op (before ++ x :: after))
          = Ok (VBool (truthy vx)))
    /\ (forall (x : expr) (after : list expr) (e : exn),
          _eval_node py variables x = Raise e ->
          _eval_node py variables (BoolOp op (before ++ x :: after))
          = Raise e)
    /\ (forall vs v,
          _eval_node py variables (BoolOp op vs) = Ok v ->
          exists b, v = VBool b).
Proof.
  intros py variables op before Hbefore.
  repeat split.
  - induction Hbefore as [|p ps [v [Hp Hv]] _ IH].
    + destruct op; reflexivity.
    + destruct op; [rewrite eval_and_cons | rewrite eval_or_cons];
        rewrite Hp; simpl; rewrite Hv; exact IH.
  - intros x after vx Hx Ht.
    induction Hbefore as [|p ps [v [Hp Hv]] _ IH]; simpl app.
    + destruct op; [rewrite eval_and_cons | rewrite eval_or_cons];
        rewrite Hx; simpl; rewrite Ht; reflexivity.
    + destruct op; [rewrite eval_and_cons | rewrite eval_or_cons];
        rewrite Hp; simpl; rewrite Hv; exact IH.
  - intros x after e Hx.
    induction Hbefore as [|p ps [v [Hp Hv]] _ IH]; simpl app.
    + destruct op; [rewrite eval_and_cons | rewrite eval_or_cons];
        rewrite Hx; reflexivity.
    + destruct op; [rewrite eval_and_cons | rewrite eval_or_cons];
        rewrite Hp; simpl; rewrite Hv; exact IH.
  - intros vs v. apply bool_op_returns_bool.
Qed.

(** The statement at a conjunction whose first operand is truthy and at a
    disjunction whose first operand is falsy. *)
Lemma C9_short_circuit_truthiness_witness :
  (_eval_node py_core [] (BoolOp And [int 5]) = Ok (VBool true)
   /\ (forall (x : expr) (after : list expr) (vx : value),
         _eval_node py_core [] x = Ok vx ->
         truthy vx = false ->
         _eval_node py_core [] (BoolOp And ([int 5] ++ x :: after))
         = Ok (VBool (truthy vx)))
   /\ (forall (x : expr) (after : list expr) (e : exn),
         _eval_node py_core [] x = Raise e ->
         _eval_node py_core [] (BoolOp And ([int 5] ++ x :: after))
         = Raise e)
   /\ (forall vs v,
         _eval_node py_core [] (BoolOp And vs) = Ok v ->
         exists b, v = VBool b))
  /\ (_eval_node py_core [] (BoolOp Or [int 0]) = Ok (VBool false)
      /\ (forall (x : expr) (after : list expr) (vx : value),
            _eval_node py_core [] x = Ok vx ->
            truthy vx = true ->
            _eval_node py_core [] (BoolOp Or ([int 0] ++ x :: after))
            = Ok (VBool (truthy vx)))
      /\ (forall (x : expr) (after : list expr) (e : exn),
            _eval_node py_core [] x = Raise e ->
            _eval_node py_core [] (BoolOp Or ([int 0] ++ x :: after))
            = Raise e)
      /\ (forall vs v,
            _eval_node py_core [] (BoolOp Or vs) = Ok v ->
            exists b, v = VBool b)).
Proof.
  split.
  - apply (C9_short_circuit_truthiness py_core [] And [int 5]).
    constructor; [|constructor]. exists (VInt 5). split; reflexivity.
  - apply (C9_short_circuit_truthiness py_core [] Or [int 0]).
    constructor; [|constructor]. exists (VInt 0). split; reflexivity.
Defined.

(** The three cases on concrete operands: all truthy, a falsy operand
    before a call that is never reached, and the same for [or]. *)
Example bool_op_cases :
  _eval_node py_core [] (BoolOp And [true_; int 5]) = Ok (VBool true)
  /\ _eval_node py_core []
       (BoolOp And [int 5; int 0; Call (Name "f") []]) = Ok (VBool false)
  /\ _eval_node py_core [] (BoolOp Or [int 0; false_]) = Ok (VBool false)
  /\ _eval_node py_core []
       (BoolOp Or [int 0; int 7; Call (Name "f") []]) = Ok (VBool true).
Proof. repeat split; reflexivity. Qed.

(** ** The environment *)

Lemma scopes_eungdi m error it : scopes (eungdi m error it) = scopes it.
Proof. unfold eungdi. destruct (fast it && negb error); reflexivity. Qed.

Lemma debug_eungdi m error it : debug (eungdi m error it) = debug it.
Proof. unfold eungdi. destruct (fast it && negb error); reflexivity. Qed.

Lemma fast_eungdi m error it : fast (eungdi m error it) = fast it.
Proof. unfold eungdi. destruct (fast it && negb error); reflexivity. Qed.

Lemma scopes_evaluate_expression py e it :
  scopes (snd (evaluate_expression py e it)) = scopes it.
Proof.
  unfold evaluate_expression.
  destruct (safe_eval py (get_combined_scope it) e); simpl;
    [reflexivity | apply scopes_eungdi].
Qed.

(** C10.  When the right-hand side raises in the evaluator or evaluates
    to [None], [handle_assign] writes nothing: the scope stack, and so
    every binding, is what it was. *)
Theorem C10_failed_assignment_writes_nothing :
  forall (py : PyOps) (name : string) (e : source) (it : Interpreter),
    raises (safe_eval py (get_combined_scope it) e)
    \/ safe_eval py (get_combined_scope it) e = Ok VNone ->
    scopes (handle_assign py name e it) = scopes it.
Proof.
  intros py name e it H. unfold handle_assign, evaluate_expression.
  destruct H as [[ex H]|H]; rewrite H; [apply scopes_eungdi | reflexivity].
Qed.

Lemma C10_failed_assignment_writes_nothing_witness :
  scopes (handle_assign py_core "sqrt" (src (Name "nowhere"))
            (init false false))
  = scopes (init false false).
Proof.
  apply (C10_failed_assignment_writes_nothing py_core "sqrt"
           (src (Name "nowhere")) (init false false)).
  left. exists (Unsafe (Undeclared "nowhere")). reflexivity.
Defined.

(** ** The call protocol *)

(** C8.  With an argument count that differs from the parameter count,
    [Function.call] reports the arity error and returns [None] without
    raising, whatever the body is; the scope stack is untouched. *)
Theorem C8_arity_mismatch :
  forall (exec : list line -> nat -> Interpreter -> outcome nat)
         (params : list string) (block : list line) (closure : list frame)
         (args : list value) (it : Interpreter),
    List.length args <> List.length params ->
    Function_call exec params block closure args it
    = Done VNone
        (eungdi (EArity (List.length params) (List.length args)) true it)
    /\ scopes (eungdi (EArity (List.length params) (List.length args)) true it)
       = scopes it.
Proof.
  intros exec params block closure args it H. unfold Function_call.
  apply Nat.eqb_neq in H. rewrite H. simpl. split; [reflexivity|].
  apply scopes_eungdi.
Qed.

Lemma C8_arity_mismatch_witness :
  Function_call (execute_lines py_core 5) ["a"; "b"] [LReturn None] [[]]
    [VInt 7] (init false false)
  = Done VNone (eungdi (EArity 2 1) true (init false false))
  /\ scopes (eungdi (EArity 2 1) true (init false false))
     = scopes (init false false).
Proof.
  apply (C8_arity_mismatch (execute_lines py_core 5) ["a"; "b"]
           [LReturn None] [[]] [VInt 7] (init false false)).
  simpl. lia.
Defined.

(** ** Frames and the scope stack *)

Lemma frame_has_get name f :
  frame_has name f = true -> exists v, frame_get name f = Some v.
Proof.
  induction f as [|[k w] f IH]; simpl; [discriminate|].
  destruct (String.eqb k name); eauto.
Qed.

Lemma frame_has_set name v f : frame_has name (frame_set name v f) = true.
Proof.
  induction f as [|[k w] f IH]; simpl.
  - now rewrite String.eqb_refl.
  - destruct (String.eqb k name) eqn:E; simpl; now rewrite E.
Qed.

Lemma frame_get_set name v f : frame_get name (frame_set name v f) = Some v.
Proof.
  induction f as [|[k w] f IH]; simpl.
  - now rewrite String.eqb_refl.
  - destruct (String.eqb k name) eqn:E; simpl; now rewrite E.
Qed.

Lemma frame_has_set_other name other v f :
  name <> other ->
  frame_has other (frame_set name v f) = frame_has other f.
Proof.
  intros Hne. induction f as [|[k w] f IH]; simpl.
  - apply String.eqb_neq in Hne. now rewrite Hne.
  - destruct (String.eqb k name) eqn:E; simpl.
    + apply String.eqb_eq in E. subst k. reflexivity.
    + now rewrite IH.
Qed.

Lemma frame_get_set_other name other v f :
  name <> other ->
  frame_get other (frame_set name v f) = frame_get other f.
Proof.
  intros Hne. induction f as [|[k w] f IH]; simpl.
  - apply String.eqb_neq in Hne. now rewrite Hne.
  - destruct (String.eqb k name) eqn:E; simpl.
    + apply String.eqb_eq in E. subst k.
      apply String.eqb_neq in Hne. now rewrite Hne.
    + now rewrite IH.
Qed.

Lemma lookup_assign_same name v rs rs' :
  assign_nearest name v rs = Some rs' -> lookup_nearest name rs' = Some v.
Proof.
  revert rs'. induction rs as [|scope rs IH]; simpl; [discriminate|].
  intros rs'. destruct (frame_has name scope) eqn:E.
  - intros H. inversion H; subst. simpl.
    now rewrite frame_has_set, frame_get_set.
  - destruct (assign_nearest name v rs) as [r|]; simpl; [|discriminate].
    intros H. inversion H; subst. simpl. rewrite E. now apply IH.
Qed.

Lemma lookup_assign_other name other v rs rs' :
  name <> other ->
  assign_nearest name v rs = Some rs' ->
  lookup_nearest other rs' = lookup_nearest other rs.
Proof.
  intros Hne. revert rs'. induction rs as [|scope rs IH]; simpl;
    [discriminate|].
  intros rs'. destruct (frame_has name scope) eqn:E.
  - intros H. inversion H; subst. simpl.
    now rewrite frame_has_set_other, frame_get_set_other.
  - destruct (assign_nearest name v rs) as [r|]; simpl; [|discriminate].
    intros H. inversion H; subst. simpl. now rewrite (IH r).
Qed.

Lemma lookup_some_has name rs v :
  lookup_nearest name rs = Some v ->
  exists rs', assign_nearest name v rs = Some rs'.
Proof.
  induction rs as [|scope rs IH]; simpl; [discriminate|].
  destruct (frame_has name scope); [eauto|].
  intros H. destruct (IH H) as [r Hr]. rewrite Hr. simpl. eauto.
Qed.

Lemma assign_defined name v w rs rs' :
  assign_nearest name v rs = Some rs' ->
  exists rs'', assign_nearest name w rs = Some rs''.
Proof.
  revert rs'. induction rs as [|scope rs IH]; simpl; [discriminate|].
  intros rs'. destruct (frame_has name scope); [eauto|].
  destruct (assign_nearest name v rs) as [r|] eqn:E; simpl; [|discriminate].
  intros _. destruct (IH r eq_refl) as [r' Hr']. rewrite Hr'. simpl. eauto.
Qed.

(** The stack seen from its top: [rev (scopes it)] after each operation. *)

Lemma current_scope_rev it : current_scope it = hd [] (rev (scopes it)).
Proof.
  unfold current_scope. destruct (scopes it) as [|a s] using rev_ind;
    [reflexivity|].
  now rewrite last_last, rev_app_distr.
Qed.

Lemma rev_scopes_update_current f it :
  rev (scopes (update_current_scope f it)) = f :: tl (rev (scopes it)).
Proof.
  simpl. rewrite rev_app_distr. simpl.
  destruct (scopes it) as [|a s] using rev_ind; [reflexivity|].
  now rewrite removelast_last, rev_app_distr.
Qed.

Lemma lookup_declare_same name it :
  exists v, lookup_nearest name (rev (scopes (declare_variable name it)))
            = Some v.
Proof.
  unfold declare_variable. rewrite current_scope_rev.
  destruct (frame_has name (hd [] (rev (scopes it)))) eqn:E.
  - rewrite scopes_eungdi. destruct (rev (scopes it)) as [|top below];
      [discriminate|]. simpl in *. rewrite E. now apply frame_has_get.
  - rewrite rev_scopes_update_current. simpl.
    rewrite frame_has_set, frame_get_set. eauto.
Qed.

Lemma lookup_declare_other name other it :
  name <> other ->
  lookup_nearest other (rev (scopes (declare_variable name it)))
  = lookup_nearest other (rev (scopes it)).
Proof.
  intros Hne. unfold declare_variable. rewrite current_scope_rev.
  destruct (frame_has name (hd [] (rev (scopes it)))) eqn:E.
  - now rewrite scopes_eungdi.
  - rewrite rev_scopes_update_current.
    destruct (rev (scopes it)) as [|top below]; simpl.
    + apply String.eqb_neq in Hne. now rewrite Hne.
    + now rewrite frame_has_set_other, frame_get_set_other.
Qed.

Lemma lookup_assign_variable_same name v it :
  (exists w, lookup_nearest name (rev (scopes it)) = Some w) ->
  lookup_nearest name (rev (scopes (assign_variable name v it))) = Some v.
Proof.
  intros [w Hw]. unfold assign_variable.
  destruct (lookup_some_has _ _ _ Hw) as [r Hr].
  destruct (assign_defined _ _ v _ _ Hr) as [r' Hr']. rewrite Hr'. simpl.
  rewrite rev_involutive. eapply lookup_assign_same; eauto.
Qed.

Lemma lookup_assign_variable_other name other v it :
  name <> other ->
  lookup_nearest other (rev (scopes (assign_variable name v it)))
  = lookup_nearest other (rev (scopes it)).
Proof.
  intros Hne. unfold assign_variable.
  destruct (assign_nearest name v (rev (scopes it))) as [r|] eqn:E.
  - simpl. rewrite rev_involutive. eapply lookup_assign_other; eauto.
  - now rewrite scopes_eungdi.
Qed.

(** The flags are never written by the environment operations. *)

Lemma flags_declare name it :
  debug (declare_variable name it) = debug it
  /\ fast (declare_variable name it) = fast it.
Proof.
  unfold declare_variable.
  destruct (frame_has name (current_scope it)).
  - now rewrite debug_eungdi, fast_eungdi.
  - split; reflexivity.
Qed.

Lemma flags_assign name v it :
  debug (assign_variable name v it) = debug it
  /\ fast (assign_variable name v it) = fast it.
Proof.
  unfold assign_variable.
  destruct (assign_nearest name v (rev (scopes it))).
  - split; reflexivity.
  - now rewrite debug_eungdi, fast_eungdi.
Qed.

(** ** Closures *)

Lemma handle_output_found name v it :
  lookup_nearest name (rev (scopes it)) = Some v ->
  fast it = false ->
  handle_output name it
  = {| scopes := scopes it; current_line := current_line it;
       debug := debug it; fast := fast it;
       log := log it ++ [{| at_line := current_line it; is_error := false;
                            text := MStr v |}] |}.
Proof.
  intros Hv Hf. unfold handle_output, get_variable. rewrite Hv.
  unfold eungdi. rewrite Hf. reflexivity.
Qed.

(** The function a definition binds: its closure is the stack as it was
    before the name was declared. *)
Lemma func_def_binds name params body rest it :
  let lines := LFuncDef name params :: body ++ LEndFunc :: rest in
  forall i block,
    scan_func (skipn 1 lines) 1 0 [] = (i, block) ->
    let it1 := snd (process_func_def lines 0 it) in
    lookup_nearest name (rev (scopes it1))
    = Some (VFunction params block (scopes it))
    /\ (forall other, name <> other ->
          lookup_nearest other (rev (scopes it1))
          = lookup_nearest other (rev (scopes it)))
    /\ debug it1 = debug it /\ fast it1 = fast it.
Proof.
  intros lines i block Hscan. unfold process_func_def.
  change (nth_error lines 0) with (Some (LFuncDef name params)).
  cbv iota. rewrite Hscan. cbn [snd].
  split; [|split].
  - apply lookup_assign_variable_same. apply lookup_declare_same.
  - intros other Hne.
    rewrite lookup_assign_variable_other by exact Hne.
    now apply lookup_declare_other.
  - destruct (flags_assign name (VFunction params block (scopes it))
                (declare_variable name it)) as [Hd Hf].
    destruct (flags_declare name it) as [Hd' Hf'].
    rewrite Hd, Hf, Hd', Hf'. split; reflexivity.
Qed.

(** C2.  A function [f] with body [output x] is defined while [x] is bound
    to [v1]; [x] is then assigned [v2].  The call of [f] writes [v1] to
    the sink: the body runs on the stack captured at the definition, and
    the caller's stack is back in place afterwards. *)
Theorem C2_closure_snapshot :
  forall (py : PyOps) (fuel : nat) (it : Interpreter) (x f : string)
         (v1 v2 : value),
    fast it = false ->
    debug it = false ->
    x <> f ->
    lookup_nearest x (rev (scopes it)) = Some v1 ->
    let defined :=
      snd (process_func_def [LFuncDef f []; LOutput x; LEndFunc] 0 it) in
    let reassigned := assign_variable x v2 defined in
    lookup_nearest x (rev (scopes reassigned)) = Some v2
    /\ exists it',
        process_func_call py (execute_lines py (S (S fuel)))
          (LFuncCall f []) reassigned = Done tt it'
        /\ scopes it' = scopes reassigned
        /\ log it' = log reassigned
                     ++ [{| at_line := Some 1; is_error := false;
                            text := MStr v1 |}].
Proof.
  intros py fuel it x f v1 v2 Hfast Hdebug Hne Hx defined reassigned.
  destruct (func_def_binds f [] [LOutput x] [] it 2 [LOutput x] eq_refl)
    as (Hf & Hother & Hd & Hfa).
  cbv zeta in Hf, Hother, Hd, Hfa. cbn [app] in Hf, Hother, Hd, Hfa.
  assert (Hxd : lookup_nearest x (rev (scopes defined)) = Some v1).
  { unfold defined. rewrite Hother; [exact Hx | congruence]. }
  split.
  { apply lookup_assign_variable_same. eauto. }
  assert (Hfr : lookup_nearest f (rev (scopes reassigned))
                = Some (VFunction [] [LOutput x] (scopes it))).
  { unfold reassigned. rewrite lookup_assign_variable_other by exact Hne.
    unfold defined. exact Hf. }
  destruct (flags_assign x v2 defined) as [Hd2 Hf2].
  assert (Hdr : debug reassigned = false).
  { unfold reassigned. rewrite Hd2. unfold defined. rewrite Hd. exact Hdebug. }
  assert (Hfr' : fast reassigned = false).
  { unfold reassigned. rewrite Hf2. unfold defined. rewrite Hfa. exact Hfast. }
  unfold process_func_call. cbn [evaluate_args].
  unfold get_variable. rewrite Hfr.
  unfold Function_call, enter_call. cbn [List.length Nat.eqb negb combine].
  rewrite Hdr. cbn [fold_left].
  cbn [execute_lines nth_error interpret_line handle_output].
  rewrite (handle_output_found x v1).
  - simpl. rewrite Hdr.
    eexists. split; [reflexivity|]. split; reflexivity.
  - cbn [set_current_line set_scopes scopes]. rewrite rev_app_distr.
    exact Hx.
  - exact Hfr'.
Qed.

Lemma C2_closure_snapshot_witness :
  let it :=
    set_scopes [builtins ++ [("x", VInt 1)]] (init false false) in
  let defined :=
    snd (process_func_def [LFuncDef "f" []; LOutput "x"; LEndFunc] 0 it) in
  let reassigned := assign_variable "x" (VInt 2) defined in
  lookup_nearest "x" (rev (scopes reassigned)) = Some (VInt 2)
  /\ exists it',
      process_func_call py_core (execute_lines py_core 2)
        (LFuncCall "f" []) reassigned = Done tt it'
      /\ scopes it' = scopes reassigned
      /\ log it' = log reassigned
                   ++ [{| at_line := Some 1; is_error := false;
                          text := MStr (VInt 1) |}].
Proof.
  apply (C2_closure_snapshot py_core 0
           (set_scopes [builtins ++ [("x", VInt 1)]] (init false false))
           "x" "f" (VInt 1) (VInt 2)).
  - reflexivity.
  - reflexivity.
  - discriminate.
  - reflexivity.
Defined.

(** Scenario F run as a program: the sink receives [1]. *)
Example scenario_F py :
  option_map texts
    (final (interpret_program py 20 prog_snapshot (init false false)))
  = Some [MStr (VInt 1)].
Proof. reflexivity. Qed.

(** C4, as the code has it.  With the right number of arguments, a body
    that runs to its end makes the call return [None], and a body left by
    a [Return] signal makes it return the signal's value; in both cases
    the caller's scope stack is put back.  Any other signal the body
    leaves by, a [break] or [continue] among them, leaves the call too,
    for the constructs around the call site to catch. *)
Theorem C4_call_exit_protocol :
  forall (py : PyOps) (fuel : nat) (params : list string)
         (block : list line) (closure : list frame) (args : list value)
         (it : Interpreter),
    List.length args = List.length params ->
    let call :=
      Function_call (execute_lines py fuel) params block closure args it in
    match execute_lines py fuel block 0 (enter_call params closure args it)
    with
    | Done _ _ => exists it', call = Done VNone it' /\ scopes it' = scopes it
    | Raised (ReturnException v) _ =>
        exists it', call = Done v it' /\ scopes it' = scopes it
    | Raised s _ => exists it', call = Raised s it'
    | OutOfFuel => call = OutOfFuel
    end.
Proof.
  intros py fuel params block closure args it Hlen call.
  unfold call, Function_call.
  apply Nat.eqb_eq in Hlen. rewrite Hlen. cbn [negb].
  destruct (execute_lines py fuel block 0 (enter_call params closure args it))
    as [j it1|s it1|]; [| destruct s |]; try (eexists; reflexivity);
    try reflexivity.
  - eexists. split; [reflexivity|].
    destruct (debug (set_scopes (scopes it) it1));
      [rewrite scopes_eungdi|]; reflexivity.
  - eexists. split; [reflexivity|].
    destruct (debug (set_scopes (scopes it) it1));
      [rewrite scopes_eungdi|]; reflexivity.
Qed.

Lemma C4_call_exit_protocol_witness :
  exists it',
    Function_call (execute_lines py_core 5) ["a"]
      [LDeclare "t"; LReturn (Some (src (Name "a")))] [builtins] [VInt 3]
      (init false false)
    = Done (VInt 3) it'
    /\ scopes it' = scopes (init false false).
Proof.
  exact (C4_call_exit_protocol py_core 5 ["a"]
           [LDeclare "t"; LReturn (Some (src (Name "a")))] [builtins]
           [VInt 3] (init false false) eq_refl).
Defined.

(** C4 as stated fails: the [break] of the body leaves the call, ends the
    loop around the call site without any report, and the caller's stack
    is not put back: the binding of [f] is gone. *)
Lemma C4_break_escapes_call :
  option_map (fun it => (texts it, scopes it))
    (final (interpret_program py_core 30 prog_break_in_call
              (init false false)))
  = Some ([MText "after"], [builtins]).
Proof. reflexivity. Qed.

(** ** The frame at index 0 *)

Lemma length_removelast_frames (s : list frame) :
  List.length (removelast s) = pred (List.length s).
Proof.
  induction s as [|a s IH]; [reflexivity|].
  destruct s as [|b s]; [reflexivity|].
  change (removelast (a :: b :: s)) with (a :: removelast (b :: s)).
  simpl List.length in *. now rewrite IH.
Qed.

Lemma hd_removelast (s : list frame) :
  1 < List.length s -> hd [] (removelast s) = hd [] s.
Proof.
  destruct s as [|a [|b t]]; simpl; intros H; try lia. reflexivity.
Qed.

Lemma hd_app_nonempty (s t : list frame) : s <> [] -> hd [] (s ++ t) = hd [] s.
Proof. destruct s; [congruence | reflexivity]. Qed.

Lemma frame_set_fresh name v f :
  frame_has name f = false -> frame_set name v f = f ++ [(name, v)].
Proof.
  induction f as [|[k w] f IH]; simpl; [reflexivity|].
  destruct (String.eqb k name); [discriminate|].
  intros H. now rewrite IH.
Qed.

Lemma assign_nearest_outermost name other v rs rs' :
  name <> other ->
  assign_nearest name v rs = Some rs' ->
  frame_get other (last rs' []) = frame_get other (last rs []).
Proof.
  intros Hne. revert rs'. induction rs as [|scope rs IH]; simpl;
    [discriminate|].
  intros rs'. destruct (frame_has name scope).
  - intros H. inversion H; subst. destruct rs; simpl; [|reflexivity].
    now apply frame_get_set_other.
  - destruct (assign_nearest name v rs) as [r|] eqn:E; simpl; [|discriminate].
    intros H. inversion H; subst.
    destruct rs as [|a rs]; [discriminate|].
    destruct r as [|b r].
    + simpl in E. destruct (frame_has name a); [discriminate|].
      destruct (assign_nearest name v rs); discriminate.
    + exact (IH (b :: r) eq_refl).
Qed.

Lemma hd_last_rev (s : list frame) : hd [] s = last (rev s) [].
Proof.
  destruct s as [|a s]; [reflexivity|]. simpl. now rewrite last_last.
Qed.

(** What the stack operations leave of the frame at index 0.  It is
    never popped and a push leaves it alone; declaring or assigning a
    name leaves what it binds to every other name as it was; and a
    declaration made while it is the only frame adds the name to it. *)
Lemma frame_0_under_stack_operations :
  forall (it : Interpreter) (name other : string) (v : value),
    scopes it <> [] ->
    name <> other ->
    hd [] (scopes (pop_scope it)) = hd [] (scopes it)
    /\ scopes (pop_scope it) <> []
    /\ hd [] (scopes (push_scope it)) = hd [] (scopes it)
    /\ frame_get other (hd [] (scopes (declare_variable name it)))
       = frame_get other (hd [] (scopes it))
    /\ frame_get other (hd [] (scopes (assign_variable name v it)))
       = frame_get other (hd [] (scopes it))
    /\ (List.length (scopes it) = 1 ->
        frame_has name (hd [] (scopes it)) = false ->
        scopes (declare_variable name it)
        = [hd [] (scopes it) ++ [(name, VNone)]]).
Proof.
  intros it name other v Hne Hno.
  repeat split.
  - unfold pop_scope. destruct (Nat.ltb 1 (List.length (scopes it))) eqn:E.
    + apply Nat.ltb_lt in E. simpl. now apply hd_removelast.
    + now rewrite scopes_eungdi.
  - unfold pop_scope. destruct (Nat.ltb 1 (List.length (scopes it))) eqn:E.
    + apply Nat.ltb_lt in E. simpl.
      destruct (scopes it) as [|a [|b t]]; simpl in *; try lia. discriminate.
    + now rewrite scopes_eungdi.
  - simpl. now apply hd_app_nonempty.
  - unfold declare_variable.
    destruct (frame_has name (current_scope it)).
    + now rewrite scopes_eungdi.
    + unfold current_scope. simpl.
      destruct (scopes it) as [|a [|b t]]; [congruence| |reflexivity].
      simpl. now apply frame_get_set_other.
  - unfold assign_variable.
    destruct (assign_nearest name v (rev (scopes it))) as [rs|] eqn:E.
    + simpl. rewrite (hd_last_rev (rev rs)), rev_involutive.
      rewrite (assign_nearest_outermost _ _ _ _ _ Hno E).
      now rewrite <- hd_last_rev.
    + now rewrite scopes_eungdi.
  - intros Hlen Hfresh.
    unfold declare_variable, current_scope, update_current_scope, set_scopes.
    destruct (scopes it) as [|a [|b t]]; simpl in *; try lia.
    rewrite Hfresh. simpl. now rewrite frame_set_fresh.
Qed.

(** C5 at its failing input.  A program that only declares [x], with no
    reset and no assignment to a builtin name, ends with [x] in the frame
    at index 0: the frame is no longer what it was at construction.  The
    reset keeps [x] there, as one of the builtins it copies; and a
    top-level delete of [sqrt] removes the builtin from the frame. *)
Theorem C5_top_level_writes_reach_frame_0 :
  forall py : PyOps,
    scopes (init false false) = [builtins]
    /\ option_map scopes
         (final (interpret_program py 5 prog_declare (init false false)))
       = Some [builtins ++ [("x", VNone)]]
    /\ option_map scopes
         (final (interpret_program py 5 prog_declare_reset
                   (init false false)))
       = Some [builtins ++ [("x", VNone)]]
    /\ option_map (fun it => frame_get "sqrt" (hd [] (scopes it)))
         (final (interpret_program py 5 prog_delete_builtin
                   (init false false)))
       = Some None.
Proof. intros py. repeat split; reflexivity. Qed.

(** ** Statement boundaries *)




(** ** Scope balance *)

(** C1 at its failing input.  A [break] inside an [if] inside a [while]:
    the program ends normally with one frame more than it started with;
    [process_if] has pushed, and only the loop's handler has popped. *)
Theorem C1_break_inside_if_leaks_scope :
  forall py : PyOps,
    depth (init false false) = 1
    /\ option_map depth
         (final (interpret_program py 10 prog_break_in_if
                   (init false false)))
       = Some 2.
Proof. intros py. split; reflexivity. Qed.

(** The same on the loop of the built-in test program. *)
Example count_down_leaks_scope :
  option_map (fun it => (depth it, texts it))
    (final (interpret_program py_core 30 prog_count_down (init false false)))
  = Some (2, [MStr (VInt 7); MStr (VInt 4)]).
Proof. reflexivity. Qed.

(** When no signal leaves the body, [process_if] does pop what it
    pushed: it is balanced as soon as the bodies it runs are. *)
Lemma process_if_balanced py exec lines index it j it' :
  0 < depth it ->
  (forall b it0 k it1, exec b 0 it0 = Done k it1 -> depth it1 = depth it0) ->
  process_if py exec lines index it = Done j it' ->
  depth it' = depth it.
Proof.
  intros Hpos Hexec. unfold process_if.
  destruct (nth_error lines index) as [[]|];
    try (intros H; inversion H; subst; unfold depth;
         now rewrite scopes_eungdi).
  destruct (evaluate_expression py cond it) as [c it1] eqn:Ec.
  destruct (scan_if _ _ _ _ _ _) as [[i ib] eb].
  destruct (exec (if truthy c then ib else eb) 0 (push_scope it1))
    as [k it2|s it2|] eqn:Hk; try discriminate.
  apply Hexec in Hk. intros H. inversion H; subst.
  assert (H1 : scopes it1 = scopes it).
  { pose proof (scopes_evaluate_expression py cond it) as Hs.
    now rewrite Ec in Hs. }
  unfold depth in *. unfold pop_scope.
  simpl in Hk. rewrite length_app in Hk. simpl in Hk.
  destruct (Nat.ltb 1 (List.length (scopes it2))) eqn:E.
  - simpl. rewrite length_removelast_frames. rewrite Hk, H1. lia.
  - apply Nat.ltb_ge in E. rewrite scopes_eungdi.
    rewrite H1 in Hk. lia.
Qed.

(** ** Block delimitation of [for] *)

(** C6 at its failing input.  For two nested [for] loops the scan of
    the outer one stops at the inner end-for, at index 3: the outer body
    is the inner opener and its line.  The inner loop runs once per outer
    element; [output i] and the outer end-for are then run as top-level
    lines, where [i] is not declared and the end-for is no command. *)
Theorem C6_nested_for_body_cut_short :
  forall py : PyOps,
    scan_for (skipn 1 prog_nested_for) 1 []
    = (3, [LFor "j" (src (EList [int 7])); LOutput "j"])
    /\ option_map texts
         (final (interpret_program py 30 prog_nested_for (init false false)))
       = Some [MStr (VInt 7); MStr (VInt 7); ENotDeclared "i"; MStr VNone;
               EUnknownCommand LEndFor].
Proof. intros py. split; reflexivity. Qed.

(** On a body without nesting the scan does stop at its end-for, and each
    element is bound in a fresh scope that is popped afterwards. *)
Example flat_for_runs_each_element py :
  option_map (fun it => (depth it, texts it))
    (final (interpret_program py 30
              [LFor "i" (src (EList [int 1; int 2])); LOutput "i"; LEndFor;
               LOutput "i"]
              (init false false)))
  = Some (1, [MStr (VInt 1); MStr (VInt 2); ENotDeclared "i"; MStr VNone]).
Proof. reflexivity. Qed.

(** ** The lexical cleaner *)

Lemma ordinary_tests c :
  ordinary c ->
  N.eqb c quote = false /\ N.eqb c dquote = false /\ N.eqb c hash = false.
Proof.
  intros (H1 & H2 & H3). repeat split; now apply N.eqb_neq.
Qed.

Lemma keep_code_ordinary a b pre rest :
  Forall ordinary pre ->
  keep_code a b (pre ++ rest) = pre ++ keep_code a b rest.
Proof.
  induction 1 as [|c pre Hc _ IH]; [reflexivity|].
  destruct (ordinary_tests c Hc) as (E1 & E2 & E3).
  simpl. rewrite E1, E2, E3. simpl. now rewrite IH.
Qed.

(** Inside a literal opened by [q], nothing but [q] changes the state. *)
Lemma keep_code_inside q body rest :
  q = quote \/ q = dquote ->
  Forall (fun c => c <> q) body ->
  keep_code (N.eqb q quote) (N.eqb q dquote) (body ++ rest)
  = body ++ keep_code (N.eqb q quote) (N.eqb q dquote) rest.
Proof.
  intros Hq. induction 1 as [|c body Hc _ IH]; [reflexivity|].
  apply N.eqb_neq in Hc. simpl.
  destruct Hq; subst q; cbn [N.eqb quote dquote Pos.eqb negb andb] in *;
    rewrite Hc; rewrite ?andb_false_r; simpl; now rewrite IH.
Qed.

Lemma keep_code_idempotent a b line :
  keep_code a b (keep_code a b line) = keep_code a b line.
Proof.
  revert a b. induction line as [|c line IH]; intros a b; [reflexivity|].
  simpl.
  destruct (N.eqb c quote && negb b) eqn:E1.
  { simpl. rewrite E1. now rewrite IH. }
  destruct (N.eqb c dquote && negb a) eqn:E2.
  { simpl. rewrite E1, E2. now rewrite IH. }
  destruct (N.eqb c hash && negb a && negb b) eqn:E3; [reflexivity|].
  simpl. rewrite E1, E2, E3. now rewrite IH.
Qed.

Lemma keep_code_prefix_fixed a b k1 k2 :
  keep_code a b (k1 ++ k2) = k1 ++ k2 -> keep_code a b k1 = k1.
Proof.
  revert a b. induction k1 as [|c k1 IH]; intros a b; [reflexivity|].
  simpl.
  destruct (N.eqb c quote && negb b).
  { intros H. injection H as H'. f_equal. now apply IH. }
  destruct (N.eqb c dquote && negb a).
  { intros H. injection H as H'. f_equal. now apply IH. }
  destruct (N.eqb c hash && negb a && negb b); [discriminate|].
  intros H. injection H as H'. f_equal. now apply IH.
Qed.

Section CleanerFacts.

Variable isspace : char -> bool.

Lemma rstrip_prefix s : exists t, s = rstrip isspace s ++ t.
Proof.
  induction s as [|c s [t IH]]; [exists []; reflexivity|].
  simpl. destruct (rstrip isspace s) as [|d k] eqn:E.
  - destruct (isspace c).
    + exists (c :: s). reflexivity.
    + exists s. reflexivity.
  - exists t. simpl. f_equal. exact IH.
Qed.

Lemma lstrip_all_space s :
  Forall (fun c => isspace c = true) s -> lstrip isspace s = [].
Proof.
  induction 1 as [|c s Hc _ IH]; [reflexivity|]. simpl. now rewrite Hc.
Qed.

Lemma lstrip_head s :
  lstrip isspace s = []
  \/ exists c r, lstrip isspace s = c :: r /\ isspace c = false.
Proof.
  induction s as [|c s IH]; [now left|].
  simpl. destruct (isspace c) eqn:E; [exact IH|].
  right. eauto.
Qed.

Lemma rstrip_idempotent s :
  rstrip isspace (rstrip isspace s) = rstrip isspace s.
Proof.
  induction s as [|c s IH]; [reflexivity|].
  simpl. destruct (rstrip isspace s) as [|d k] eqn:E.
  - destruct (isspace c) eqn:Ec; [reflexivity|]. simpl. now rewrite Ec.
  - change (rstrip isspace (c :: d :: k))
      with (match rstrip isspace (d :: k) with
            | [] => if isspace c then [] else [c]
            | kept => c :: kept
            end).
    now rewrite IH.
Qed.

Lemma strip_idempotent s :
  strip isspace (strip isspace s) = strip isspace s.
Proof.
  unfold strip.
  assert (H : lstrip isspace (rstrip isspace (lstrip isspace s))
              = rstrip isspace (lstrip isspace s)).
  { destruct (lstrip_head s) as [E|(c & r & E & Hc)]; rewrite E;
      [reflexivity|].
    cbn [rstrip]. destruct (rstrip isspace r); rewrite ?Hc; cbn [lstrip];
      now rewrite Hc. }
  rewrite H. apply rstrip_idempotent.
Qed.

Lemma lstrip_fixed k :
  isspace quote = false ->
  isspace dquote = false ->
  keep_code false false k = k ->
  keep_code false false (lstrip isspace k) = lstrip isspace k.
Proof.
  intros Hq Hd. induction k as [|c k IH]; [reflexivity|].
  intros H. cbn [lstrip]. destruct (isspace c) eqn:Ec; [|exact H].
  apply IH. simpl in H.
  assert (E1 : N.eqb c quote = false).
  { apply N.eqb_neq. intros ->. congruence. }
  assert (E2 : N.eqb c dquote = false).
  { apply N.eqb_neq. intros ->. congruence. }
  rewrite E1, E2 in H. simpl in H.
  destruct (N.eqb c hash); simpl in H; [discriminate|].
  now injection H as H'.
Qed.

Lemma strip_fixed k :
  isspace quote = false ->
  isspace dquote = false ->
  keep_code false false k = k ->
  keep_code false false (strip isspace k) = strip isspace k.
Proof.
  intros Hq Hd H. unfold strip.
  destruct (rstrip_prefix (lstrip isspace k)) as [t Ht].
  apply (keep_code_prefix_fixed false false _ t).
  rewrite <- Ht. now apply lstrip_fixed.
Qed.

End CleanerFacts.

(** X1.  A comment sign inside a string literal does not start a comment:
    when the text before the literal holds no quote and no comment sign,
    the literal is kept whole and the scan goes on after it, outside any
    literal. *)
Theorem hash_inside_literal_is_kept :
  forall (isspace : char -> bool) (q : char) (pre body post : list char),
    q = quote \/ q = dquote ->
    Forall ordinary pre ->
    Forall (fun c => c <> q) body ->
    remove_comments isspace (pre ++ q :: body ++ q :: post)
    = strip isspace (pre ++ q :: body ++ q :: keep_code false false post).
Proof.
  intros isspace q pre body post Hq Hpre Hbody. unfold remove_comments.
  f_equal. rewrite keep_code_ordinary by exact Hpre. f_equal.
  assert (H : keep_code false false (q :: body ++ q :: post)
              = q :: keep_code (N.eqb q quote) (N.eqb q dquote)
                       (body ++ q :: post)).
  { destruct Hq; subst q; reflexivity. }
  rewrite H. f_equal. rewrite keep_code_inside by assumption. f_equal.
  destruct Hq; subst q; reflexivity.
Qed.

Lemma hash_inside_literal_is_kept_witness :
  remove_comments ascii_space
    (codes "print " ++ dquote :: codes "a#b" ++ dquote :: codes " # c")
  = strip ascii_space
      (codes "print " ++ dquote :: codes "a#b" ++ dquote
         :: keep_code false false (codes " # c")).
Proof.
  apply (hash_inside_literal_is_kept ascii_space dquote (codes "print ")
           (codes "a#b") (codes " # c")).
  - now right.
  - repeat constructor; discriminate.
  - repeat constructor; discriminate.
Defined.

(** X2.  Outside a literal the first comment sign ends the line: what
    follows it is dropped, whatever it is; a line that holds only
    whitespace before it is cleaned to the empty line. *)
Theorem comment_is_cut :
  forall (isspace : char -> bool) (pre rest : list char),
    Forall ordinary pre ->
    remove_comments isspace (pre ++ hash :: rest) = strip isspace pre
    /\ (Forall (fun c => isspace c = true) pre ->
        remove_comments isspace (pre ++ hash :: rest) = []).
Proof.
  intros isspace pre rest Hpre.
  assert (H : remove_comments isspace (pre ++ hash :: rest)
              = strip isspace pre).
  { unfold remove_comments. rewrite keep_code_ordinary by exact Hpre.
    simpl. now rewrite app_nil_r. }
  split; [exact H|].
  intros Hs. rewrite H. unfold strip. now rewrite lstrip_all_space.
Qed.

Lemma comment_is_cut_witness :
  remove_comments ascii_space (codes "  " ++ hash :: codes " note")
  = strip ascii_space (codes "  ")
  /\ (Forall (fun c => ascii_space c = true) (codes "  ") ->
      remove_comments ascii_space (codes "  " ++ hash :: codes " note") = []).
Proof.
  apply (comment_is_cut ascii_space (codes "  ") (codes " note")).
  repeat constructor; discriminate.
Defined.

(** X3.  Cleaning a cleaned line changes nothing, so the blocks, which
    store cleaned lines, are read back as they were stored; the quotes
    must not count as whitespace. *)
Theorem remove_comments_idempotent :
  forall (isspace : char -> bool) (line : list char),
    isspace quote = false ->
    isspace dquote = false ->
    remove_comments isspace (remove_comments isspace line)
    = remove_comments isspace line.
Proof.
  intros isspace line Hq Hd. unfold remove_comments.
  rewrite (strip_fixed isspace _ Hq Hd (keep_code_idempotent false false line)).
  apply strip_idempotent.
Qed.

Lemma remove_comments_idempotent_witness :
  remove_comments ascii_space
    (remove_comments ascii_space (codes " x = 'a#' # tail "))
  = remove_comments ascii_space (codes " x = 'a#' # tail ").
Proof.
  apply (remove_comments_idempotent ascii_space (codes " x = 'a#' # tail ")).
  - reflexivity.
  - reflexivity.
Defined.

(** ** Block delimitation *)

Lemma scan_while_walk b rest i n acc n' :
  nesting is_while is_end_while b n = Some n' ->
  scan_while (b ++ rest) i n acc
  = scan_while rest (i + List.length b) n' (acc ++ b).
Proof.
  revert i n acc. induction b as [|l b IH]; intros i n acc; simpl.
  - intros H. injection H as ->. now rewrite Nat.add_0_r, app_nil_r.
  - replace (i + S (List.length b)) with (S i + List.length b) by lia.
    replace (acc ++ l :: b) with ((acc ++ [l]) ++ b)
      by now rewrite <- app_assoc.
    destruct (is_while l); [apply IH|].
    destruct (is_end_while l); [|apply IH].
    destruct n; [discriminate | apply IH].
Qed.

Lemma scan_func_walk b rest i n acc n' :
  nesting is_func_def is_end_func b n = Some n' ->
  scan_func (b ++ rest) i n acc
  = scan_func rest (i + List.length b) n' (acc ++ b).
Proof.
  revert i n acc. induction b as [|l b IH]; intros i n acc; simpl.
  - intros H. injection H as ->. now rewrite Nat.add_0_r, app_nil_r.
  - replace (i + S (List.length b)) with (S i + List.length b) by lia.
    replace (acc ++ l :: b) with ((acc ++ [l]) ++ b)
      by now rewrite <- app_assoc.
    destruct (is_func_def l); [apply IH|].
    destruct (is_end_func l); [|apply IH].
    destruct n; [discriminate | apply IH].
Qed.

Lemma scan_if_walk b rest i in_else n ib eb n' :
  nesting_if b n = Some n' ->
  scan_if (b ++ rest) i in_else n ib eb
  = scan_if rest (i + List.length b) in_else n'
      (if in_else then ib else ib ++ b)
      (if in_else then eb ++ b else eb).
Proof.
  revert i n ib eb. induction b as [|l b IH]; intros i n ib eb; simpl.
  - intros H. injection H as ->. rewrite Nat.add_0_r, !app_nil_r.
    now destruct in_else.
  - replace (i + S (List.length b)) with (S i + List.length b) by lia.
    replace (ib ++ l :: b) with ((ib ++ [l]) ++ b)
      by now rewrite <- app_assoc.
    replace (eb ++ l :: b) with ((eb ++ [l]) ++ b)
      by now rewrite <- app_assoc.
    destruct (is_if l).
    { intros H. destruct in_else; now rewrite (IH _ _ _ _ H). }
    destruct (is_end_if l).
    { destruct n; [discriminate|].
      intros H. destruct in_else; now rewrite (IH _ _ _ _ H). }
    destruct (is_else l && Nat.eqb n 0); [discriminate|].
    intros H. destruct in_else; now rewrite (IH _ _ _ _ H).
Qed.

Lemma scan_for_walk b rest i acc :
  Forall (fun l => is_end_for l = false) b ->
  scan_for (b ++ rest) i acc = scan_for rest (i + List.length b) (acc ++ b).
Proof.
  intros H. revert i acc. induction H as [|l b Hl _ IH]; intros i acc; simpl.
  - now rewrite Nat.add_0_r, app_nil_r.
  - rewrite Hl, IH. f_equal; [lia | now rewrite <- app_assoc].
Qed.

(** X4.  The scan of a [while] body follows the nesting: a body in which
    every inner [while] is closed is delimited by the end-while that
    follows it, inner end-whiles staying part of the body.  When no
    closing line is met, the whole remainder of the lines is taken as the
    body. *)
Theorem scan_while_follows_nesting :
  forall (b rest : list line) (i n : nat),
    nesting is_while is_end_while b 0 = Some n ->
    scan_while b i 0 [] = (i + List.length b, b)
    /\ (n = 0 ->
        scan_while (b ++ LEndWhile :: rest) i 0 [] = (i + List.length b, b)).
Proof.
  intros b rest i n H. split.
  - rewrite <- (app_nil_r b) at 1. now rewrite (scan_while_walk _ _ _ _ _ _ H).
  - intros ->. now rewrite (scan_while_walk _ _ _ _ _ _ H).
Qed.

Lemma scan_while_follows_nesting_witness :
  let b := [LWhile (src true_); LPrint "in"; LEndWhile; LPrint "out"] in
  scan_while b 1 0 [] = (1 + List.length b, b)
  /\ (0 = 0 ->
      scan_while (b ++ LEndWhile :: [LPrint "after"]) 1 0 []
      = (1 + List.length b, b)).
Proof.
  apply (scan_while_follows_nesting
           [LWhile (src true_); LPrint "in"; LEndWhile; LPrint "out"]
           [LPrint "after"] 1 0).
  reflexivity.
Defined.

(** X5.  The scan of a function body follows the nesting of definitions
    in the same way: the end line of an inner definition stays in the
    body, and without a closing line the remainder is the body. *)
Theorem scan_func_follows_nesting :
  forall (b rest : list line) (i n : nat),
    nesting is_func_def is_end_func b 0 = Some n ->
    scan_func b i 0 [] = (i + List.length b, b)
    /\ (n = 0 ->
        scan_func (b ++ LEndFunc :: rest) i 0 [] = (i + List.length b, b)).
Proof.
  intros b rest i n H. split.
  - rewrite <- (app_nil_r b) at 1. now rewrite (scan_func_walk _ _ _ _ _ _ H).
  - intros ->. now rewrite (scan_func_walk _ _ _ _ _ _ H).
Qed.

Lemma scan_func_follows_nesting_witness :
  let b := [LFuncDef "g" []; LReturn None; LEndFunc; LPrint "out"] in
  scan_func b 1 0 [] = (1 + List.length b, b)
  /\ (0 = 0 ->
      scan_func (b ++ LEndFunc :: [LPrint "after"]) 1 0 []
      = (1 + List.length b, b)).
Proof.
  apply (scan_func_follows_nesting
           [LFuncDef "g" []; LReturn None; LEndFunc; LPrint "out"]
           [LPrint "after"] 1 0).
  reflexivity.
Defined.

(** X6.  The scan of an [if] splits the two branches at the [else] of
    its own depth and ends at its own end-if: with both branches closed,
    the then-lines and the else-lines come back as they are, the [else]
    line itself in neither; without an [else] the second block is
    empty. *)
Theorem scan_if_splits_branches :
  forall (t e rest : list line) (i : nat),
    nesting_if t 0 = Some 0 ->
    nesting_if e 0 = Some 0 ->
    scan_if (t ++ LElse :: e ++ LEndIf :: rest) i false 0 [] []
    = (i + List.length t + 1 + List.length e, t, e)
    /\ scan_if (t ++ LEndIf :: rest) i false 0 [] []
       = (i + List.length t, t, []).
Proof.
  intros t e rest i Ht He. split.
  - rewrite (scan_if_walk _ _ _ _ _ _ _ _ Ht). cbn [scan_if is_if is_end_if
      is_else andb Nat.eqb].
    rewrite (scan_if_walk _ _ _ _ _ _ _ _ He). simpl.
    repeat f_equal. lia.
  - now rewrite (scan_if_walk _ _ _ _ _ _ _ _ Ht).
Qed.

Lemma scan_if_splits_branches_witness :
  let t := [LIf (src true_); LPrint "a"; LElse; LPrint "b"; LEndIf] in
  let e := [LPrint "c"] in
  scan_if (t ++ LElse :: e ++ LEndIf :: [LPrint "after"]) 1 false 0 [] []
  = (1 + List.length t + 1 + List.length e, t, e)
  /\ scan_if (t ++ LEndIf :: [LPrint "after"]) 1 false 0 [] []
     = (1 + List.length t, t, []).
Proof.
  apply (scan_if_splits_branches
           [LIf (src true_); LPrint "a"; LElse; LPrint "b"; LEndIf]
           [LPrint "c"] [LPrint "after"] 1).
  - reflexivity.
  - reflexivity.
Defined.

(** X7.  The scan of a [for] body ends at the first end-for it meets,
    whatever openers the body holds, and takes the whole remainder when
    there is none. *)
Theorem scan_for_stops_at_first_end :
  forall (b rest : list line) (i : nat),
    Forall (fun l => is_end_for l = false) b ->
    scan_for (b ++ LEndFor :: rest) i [] = (i + List.length b, b)
    /\ scan_for b i [] = (i + List.length b, b).
Proof.
  intros b rest i H. split.
  - now rewrite (scan_for_walk _ _ _ _ H).
  - rewrite <- (app_nil_r b) at 1. now rewrite (scan_for_walk _ _ _ _ H).
Qed.

Lemma scan_for_stops_at_first_end_witness :
  let b := [LFor "j" (src (EList [int 7])); LOutput "j"] in
  scan_for (b ++ LEndFor :: [LOutput "i"; LEndFor]) 1 []
  = (1 + List.length b, b)
  /\ scan_for b 1 [] = (1 + List.length b, b).
Proof.
  apply (scan_for_stops_at_first_end
           [LFor "j" (src (EList [int 7])); LOutput "j"]
           [LOutput "i"; LEndFor] 1).
  repeat constructor.
Defined.

(** ** Names, frames and the combined view *)

Lemma frame_has_as_get name f :
  frame_has name f = match frame_get name f with
                     | Some _ => true
                     | None => false
                     end.
Proof.
  induction f as [|[k w] f IH]; simpl; [reflexivity|].
  destruct (String.eqb k name); [reflexivity | exact IH].
Qed.

Lemma frame_get_app name f g :
  frame_get name (f ++ g)
  = if frame_has name f then frame_get name f else frame_get name g.
Proof.
  induction f as [|[k w] f IH]; simpl; [reflexivity|].
  destruct (String.eqb k name); [reflexivity | exact IH].
Qed.

Lemma combined_get name rs :
  frame_get name (concat rs) = lookup_nearest name rs.
Proof.
  induction rs as [|f rs IH]; simpl; [reflexivity|].
  rewrite frame_get_app, IH. reflexivity.
Qed.

Lemma eval_name_nearest py it x :
  safe_eval py (get_combined_scope it) (src (Name x))
  = match lookup_nearest x (rev (scopes it)) with
    | Some VNone => Raise (Unsafe (Unassigned x))
    | Some v => Ok v
    | None => Raise (Unsafe (Undeclared x))
    end.
Proof.
  unfold safe_eval, src, get_combined_scope. cbn [_eval_node].
  rewrite frame_has_as_get, combined_get.
  destruct (lookup_nearest x (rev (scopes it))) as [[]|]; reflexivity.
Qed.

Lemma lookup_declare_fresh name it :
  frame_has name (current_scope it) = false ->
  lookup_nearest name (rev (scopes (declare_variable name it))) = Some VNone.
Proof.
  intros H. unfold declare_variable. rewrite H.
  rewrite rev_scopes_update_current. simpl.
  now rewrite frame_has_set, frame_get_set.
Qed.

Lemma assign_nearest_none name v rs :
  assign_nearest name v rs = None <-> lookup_nearest name rs = None.
Proof.
  induction rs as [|f rs IH]; simpl; [tauto|].
  destruct (frame_has name f) eqn:E.
  - destruct (frame_has_get _ _ E) as [w Hw]. rewrite Hw.
    split; discriminate.
  - destruct (assign_nearest name v rs); simpl.
    + split; [discriminate|]. intros H. apply IH in H. discriminate.
    + split; [intros _; now apply IH | reflexivity].
Qed.

Lemma assign_nearest_length name v rs rs' :
  assign_nearest name v rs = Some rs' -> List.length rs' = List.length rs.
Proof.
  revert rs'. induction rs as [|f rs IH]; simpl; [discriminate|].
  intros rs'. destruct (frame_has name f).
  - intros H. injection H as <-. reflexivity.
  - destruct (assign_nearest name v rs) as [r|]; simpl; [|discriminate].
    intros H. injection H as <-. simpl. now rewrite (IH r).
Qed.

(** X8.  In an expression a name stands for its nearest binding, the one
    [get_variable] finds: its value when it has one; a name that is
    declared and still holds [None] is an error of its own, distinct from
    that of a name no frame declares.  Both errors are reported and the
    expression yields [None]. *)
Theorem name_evaluates_to_nearest_binding :
  forall (py : PyOps) (it : Interpreter) (x : string),
    evaluate_expression py (src (Name x)) it
    = match lookup_nearest x (rev (scopes it)) with
      | Some VNone =>
          (VNone, eungdi (EEval (Unsafe (Unassigned x))) true it)
      | Some v => (v, it)
      | None => (VNone, eungdi (EEval (Unsafe (Undeclared x))) true it)
      end.
Proof.
  intros py it x. unfold evaluate_expression. rewrite eval_name_nearest.
  destruct (lookup_nearest x (rev (scopes it))) as [[]|]; reflexivity.
Qed.

(** X9.  Declare, assign, read.  A name declared in the current scope
    reads as unassigned, even when an outer frame gives it a value;
    once a value other than [None] is assigned, the name reads as that
    value. *)
Theorem declare_assign_read :
  forall (py : PyOps) (it : Interpreter) (x : string) (v : value),
    frame_has x (current_scope it) = false ->
    v <> VNone ->
    safe_eval py (get_combined_scope (declare_variable x it)) (src (Name x))
    = Raise (Unsafe (Unassigned x))
    /\ safe_eval py
         (get_combined_scope (assign_variable x v (declare_variable x it)))
         (src (Name x))
       = Ok v.
Proof.
  intros py it x v Hfresh Hv. split.
  - rewrite eval_name_nearest. now rewrite lookup_declare_fresh.
  - rewrite eval_name_nearest.
    rewrite lookup_assign_variable_same by apply lookup_declare_same.
    destruct v; congruence.
Qed.

Lemma declare_assign_read_witness :
  safe_eval py_core
    (get_combined_scope
       (declare_variable "x"
          (push_scope (set_scopes [[("x", VInt 1)]] (init false false)))))
    (src (Name "x"))
  = Raise (Unsafe (Unassigned "x"))
  /\ safe_eval py_core
       (get_combined_scope
          (assign_variable "x" (VInt 2)
             (declare_variable "x"
                (push_scope
                   (set_scopes [[("x", VInt 1)]] (init false false))))))
       (src (Name "x"))
     = Ok (VInt 2).
Proof.
  apply (declare_assign_read py_core
           (push_scope (set_scopes [[("x", VInt 1)]] (init false false)))
           "x" (VInt 2)).
  - reflexivity.
  - discriminate.
Defined.


Lemma pop_scope_last it s f :
  s <> [] -> scopes it = s ++ [f] -> pop_scope it = set_scopes s it.
Proof.
  intros Hne Hs. unfold pop_scope. rewrite Hs, removelast_last.
  destruct (Nat.ltb_spec 1 (List.length (s ++ [f]))) as [_|Hle];
    [reflexivity|].
  rewrite length_app in Hle. simpl in Hle.
  destruct s; [congruence | simpl in Hle; lia].
Qed.

Lemma bind_in_new_scope it x v :
  let inner := assign_variable x v (declare_variable x (push_scope it)) in
  scopes inner = scopes it ++ [[(x, v)]]
  /\ log inner = log it
  /\ fast inner = fast it
  /\ debug inner = debug it.
Proof.
  intros inner.
  unfold inner, declare_variable, current_scope, update_current_scope.
  cbn [push_scope set_scopes scopes]. rewrite last_last.
  cbn [frame_has frame_set]. rewrite removelast_last.
  unfold assign_variable. cbn [set_scopes scopes].
  rewrite rev_app_distr. cbn [rev app assign_nearest frame_has].
  rewrite String.eqb_refl. cbn [frame_set]. rewrite String.eqb_refl.
  simpl. rewrite rev_involutive. repeat split; reflexivity.
Qed.

(** X11.  Shadowing.  On a non-empty stack, push, declare [x] and assign
    it: the new frame holds [x] alone, [x] reads as the new value, nothing
    is reported, and the pop gives back the stack as it was, with whatever
    an outer frame binds [x] to.  This is what the [for] loop does with
    its variable at each element. *)
Theorem pushed_scope_shadows_and_pops :
  forall (it : Interpreter) (x : string) (v : value),
    scopes it <> [] ->
    let inner := assign_variable x v (declare_variable x (push_scope it)) in
    scopes inner = scopes it ++ [[(x, v)]]
    /\ log inner = log it
    /\ lookup_nearest x (rev (scopes inner)) = Some v
    /\ scopes (pop_scope inner) = scopes it
    /\ pop_scope (push_scope it) = it.
Proof.
  intros it x v Hne inner.
  destruct (bind_in_new_scope it x v) as (Hs & Hl & _).
  fold inner in Hs, Hl. repeat split; try assumption.
  - rewrite Hs, rev_app_distr. simpl. now rewrite String.eqb_refl.
  - now rewrite (pop_scope_last inner (scopes it) [(x, v)] Hne Hs).
  - rewrite (pop_scope_last (push_scope it) (scopes it) [] Hne eq_refl).
    now destruct it.
Qed.

Lemma pushed_scope_shadows_and_pops_witness :
  let it := set_scopes [builtins; [("x", VInt 1)]] (init false false) in
  let inner :=
    assign_variable "x" (VInt 5) (declare_variable "x" (push_scope it)) in
  scopes inner = scopes it ++ [[("x", VInt 5)]]
  /\ log inner = log it
  /\ lookup_nearest "x" (rev (scopes inner)) = Some (VInt 5)
  /\ scopes (pop_scope inner) = scopes it
  /\ pop_scope (push_scope it) = it.
Proof.
  apply (pushed_scope_shadows_and_pops
           (set_scopes [builtins; [("x", VInt 1)]] (init false false))
           "x" (VInt 5)).
  discriminate.
Defined.

(** ** Saving, loading and binding *)

Lemma frame_has_in name f :
  frame_has name f = true -> List.In name (map fst f).
Proof.
  induction f as [|[k w] f IH]; simpl; [discriminate|].
  destruct (String.eqb k name) eqn:E; [|auto].
  apply String.eqb_eq in E. auto.
Qed.

Lemma frame_has_not_in name f :
  ~ List.In name (map fst f) -> frame_has name f = false.
Proof.
  intros H. destruct (frame_has name f) eqn:E; [|reflexivity].
  now apply frame_has_in in E.
Qed.

Lemma get_dict_update name d other :
  well_formed other ->
  frame_get name (dict_update d other)
  = if frame_has name other then frame_get name other
    else frame_get name d.
Proof.
  unfold well_formed, dict_update. revert d.
  induction other as [|[k v] o IH]; intros d Hwf; [reflexivity|].
  simpl in Hwf. inversion Hwf as [|? ? Hk Ho]; subst.
  cbn [fold_left fst snd]. rewrite (IH _ Ho). simpl.
  destruct (String.eqb k name) eqn:E.
  - apply String.eqb_eq in E. subst k.
    rewrite (frame_has_not_in _ _ Hk). apply frame_get_set.
  - apply String.eqb_neq in E.
    destruct (frame_has name o); [reflexivity|].
    now apply frame_get_set_other.
Qed.

Lemma get_dict_update_absent name d other :
  frame_has name other = false ->
  frame_get name (dict_update d other) = frame_get name d.
Proof.
  unfold dict_update. revert d.
  induction other as [|[k v] o IH]; intros d; [reflexivity|].
  simpl. destruct (String.eqb k name) eqn:E; [discriminate|].
  intros H. rewrite (IH _ H). apply frame_get_set_other.
  now apply String.eqb_neq.
Qed.

Lemma lookup_nearest_app name a b :
  lookup_nearest name (a ++ b)
  = match lookup_nearest name a with
    | Some v => Some v
    | None => lookup_nearest name b
    end.
Proof.
  induction a as [|f a IH]; simpl; [reflexivity|].
  destruct (frame_has name f) eqn:E; [|exact IH].
  destruct (frame_has_get _ _ E) as [w Hw]. now rewrite Hw.
Qed.

Lemma get_merged name fs d :
  Forall well_formed fs ->
  frame_get name (fold_left dict_update fs d)
  = match lookup_nearest name (rev fs) with
    | Some v => Some v
    | None => frame_get name d
    end.
Proof.
  intros H. revert d. induction H as [|f fs Hf _ IH]; intros d;
    [reflexivity|].
  simpl. rewrite IH, lookup_nearest_app.
  destruct (lookup_nearest name (rev fs)); [reflexivity|].
  rewrite (get_dict_update _ _ _ Hf). simpl.
  rewrite frame_has_as_get.
  destruct (frame_get name f); reflexivity.
Qed.

(** X12.  What is saved.  The dictionary written by the save command
    holds, for each name, its nearest binding among the frames above
    index 0, and nothing of frame 0: with a single frame on the stack,
    as at the top level of a program, it is empty whatever the program
    has declared. *)
Theorem saved_vars_leave_out_frame_0 :
  forall (it : Interpreter) (x : string),
    Forall well_formed (scopes it) ->
    frame_get x (user_vars it) = lookup_nearest x (rev (tl (scopes it)))
    /\ (List.length (scopes it) = 1 -> user_vars it = []).
Proof.
  intros it x Hwf. unfold user_vars. split.
  - rewrite get_merged.
    + destruct (lookup_nearest x (rev (tl (scopes it)))); reflexivity.
    + destruct (scopes it); [constructor|]. now inversion Hwf.
  - destruct (scopes it) as [|a [|b s]]; simpl; intros H;
      [discriminate | reflexivity | discriminate].
Qed.

Lemma saved_vars_leave_out_frame_0_witness :
  let it :=
    set_scopes [builtins ++ [("x", VInt 1)]; [("y", VInt 2)]]
      (init false false) in
  frame_get "x" (user_vars it) = lookup_nearest "x" (rev (tl (scopes it)))
  /\ (List.length (scopes it) = 1 -> user_vars it = []).
Proof.
  apply (saved_vars_leave_out_frame_0
           (set_scopes [builtins ++ [("x", VInt 1)]; [("y", VInt 2)]]
              (init false false)) "x").
  repeat constructor; simpl; intuition discriminate.
Defined.

(** X13.  What is loaded.  The loaded names are written into the current
    scope only: afterwards a loaded name reads as its loaded value, also
    when it was declared before, and every other name reads as before;
    the depth of the stack is unchanged. *)
Theorem loaded_vars_override_current_scope :
  forall (it : Interpreter) (loaded : frame) (x : string),
    scopes it <> [] ->
    well_formed loaded ->
    lookup_nearest x (rev (scopes (load_vars loaded it)))
    = (if frame_has x loaded then frame_get x loaded
       else lookup_nearest x (rev (scopes it)))
    /\ depth (load_vars loaded it) = depth it.
Proof.
  intros it loaded x Hne Hwf. unfold load_vars. split.
  - rewrite rev_scopes_update_current, current_scope_rev.
    destruct (rev (scopes it)) as [|cur below] eqn:E.
    { apply (f_equal (@rev frame)) in E. rewrite rev_involutive in E.
      simpl in E. congruence. }
    cbn [hd tl lookup_nearest].
    rewrite frame_has_as_get, (get_dict_update _ _ _ Hwf).
    rewrite (frame_has_as_get x cur).
    destruct (frame_has x loaded) eqn:Eh.
    + destruct (frame_has_get _ _ Eh) as [w Hw]. now rewrite Hw.
    + destruct (frame_get x cur); reflexivity.
  - unfold depth, update_current_scope. simpl.
    rewrite length_app, length_removelast_frames. simpl.
    destruct (scopes it); [congruence | simpl; lia].
Qed.

Lemma loaded_vars_override_current_scope_witness :
  let it := set_scopes [builtins ++ [("x", VInt 1)]] (init false false) in
  lookup_nearest "x" (rev (scopes (load_vars [("x", VInt 9)] it)))
  = (if frame_has "x" [("x", VInt 9)] then frame_get "x" [("x", VInt 9)]
     else lookup_nearest "x" (rev (scopes it)))
  /\ depth (load_vars [("x", VInt 9)] it) = depth it.
Proof.
  apply (loaded_vars_override_current_scope
           (set_scopes [builtins ++ [("x", VInt 1)]] (init false false))
           [("x", VInt 9)] "x").
  - discriminate.
  - repeat constructor. simpl. tauto.
Defined.

Lemma enter_call_scopes params closure args it :
  scopes (enter_call params closure args it)
  = closure ++ [dict_update [] (combine params args)].
Proof.
  unfold enter_call.
  set (start := set_scopes (closure ++ [[]])
                  (if debug it then eungdi (MCallStart params args) false it
                   else it)).
  assert (H : scopes start = closure ++ [[]]) by reflexivity.
  clearbody start. revert H. generalize (@nil (string * value)) as f.
  generalize (combine params args) as pairs. intros pairs.
  revert start. induction pairs as [|[p a] pairs IH]; intros start f H.
  - exact H.
  - cbn [fold_left fst snd]. unfold dict_update. cbn [fold_left fst snd].
    apply IH. unfold update_current_scope, current_scope.
    cbn [set_scopes scopes]. rewrite H, removelast_last, last_last.
    reflexivity.
Qed.

Lemma get_combine params args i p a :
  NoDup params ->
  nth_error params i = Some p ->
  nth_error args i = Some a ->
  frame_get p (combine params args) = Some a.
Proof.
  intros Hnd. revert args i. induction Hnd as [|q ps Hq _ IH];
    intros args i Hp Ha.
  - destruct i; discriminate.
  - destruct args as [|b args]; [destruct i; discriminate|].
    destruct i as [|i]; simpl in *.
    + injection Hp as ->. injection Ha as ->. now rewrite String.eqb_refl.
    + destruct (String.eqb q p) eqn:E.
      * apply String.eqb_eq in E. subst q.
        apply nth_error_In in Hp. contradiction.
      * eapply IH; eassumption.
Qed.

Lemma well_formed_combine params (args : list value) :
  NoDup params -> well_formed (combine params args).
Proof.
  unfold well_formed. intros Hnd. revert args.
  induction Hnd as [|q ps Hq _ IH]; intros args; [constructor|].
  destruct args as [|b args]; [constructor|]. simpl. constructor; [|apply IH].
  intros Hin. apply Hq. clear - Hin. revert args Hin.
  induction ps as [|r ps IH]; intros args Hin; [exact Hin|].
  destruct args; [contradiction|]. simpl in Hin.
  destruct Hin; [now left | right; eauto].
Qed.

Lemma has_combine_not_in name params (args : list value) :
  ~ List.In name params -> frame_has name (combine params args) = false.
Proof.
  intros Hn. apply frame_has_not_in. intros Hin. apply Hn. clear Hn.
  revert args Hin. induction params as [|q ps IH]; intros args Hin;
    [exact Hin|].
  destruct args; [contradiction|]. simpl in Hin.
  destruct Hin; [now left | right; eauto].
Qed.

(** X14.  Parameters.  With distinct parameter names, the stack a call
    installs binds each parameter to the argument at the same position,
    also when the closure binds that name to something else; a name that
    is no parameter reads as in the closure. *)
Theorem call_binds_parameters :
  forall (params : list string) (closure : list frame) (args : list value)
         (it : Interpreter),
    NoDup params ->
    let entered := enter_call params closure args it in
    (forall i p a,
        nth_error params i = Some p ->
        nth_error args i = Some a ->
        lookup_nearest p (rev (scopes entered)) = Some a)
    /\ (forall name,
          ~ List.In name params ->
          lookup_nearest name (rev (scopes entered))
          = lookup_nearest name (rev closure)).
Proof.
  intros params closure args it Hnd entered.
  unfold entered. rewrite enter_call_scopes, rev_app_distr.
  cbn [rev app lookup_nearest].
  pose proof (well_formed_combine params args Hnd) as Hwf.
  split.
  - intros i p a Hp Ha.
    pose proof (get_combine _ _ _ _ _ Hnd Hp Ha) as Hg.
    rewrite frame_has_as_get, (get_dict_update _ _ _ Hwf).
    rewrite frame_has_as_get, Hg. reflexivity.
  - intros name Hn.
    rewrite frame_has_as_get, (get_dict_update _ _ _ Hwf).
    now rewrite (has_combine_not_in _ _ _ Hn).
Qed.

Lemma call_binds_parameters_witness :
  let entered :=
    enter_call ["a"; "b"] [[("a", VInt 0); ("c", VInt 3)]]
      [VInt 7; VInt 8] (init false false) in
  (forall i p a,
      nth_error ["a"; "b"] i = Some p ->
      nth_error [VInt 7; VInt 8] i = Some a ->
      lookup_nearest p (rev (scopes entered)) = Some a)
  /\ (forall name,
        ~ List.In name ["a"; "b"] ->
        lookup_nearest name (rev (scopes entered))
        = lookup_nearest name (rev [[("a", VInt 0); ("c", VInt 3)]])).
Proof.
  apply (call_binds_parameters ["a"; "b"] [[("a", VInt 0); ("c", VInt 3)]]
           [VInt 7; VInt 8] (init false false)).
  repeat constructor; simpl; intuition discriminate.
Defined.



(** ** The sink and the flags along a run *)

Lemma grows_refl it : grows it it.
Proof.
  repeat split. exists []. split; [now rewrite app_nil_r | constructor].
Qed.

Lemma grows_trans a b c : grows a b -> grows b c -> grows a c.
Proof.
  intros (Hd1 & Hf1 & l1 & Hl1 & He1) (Hd2 & Hf2 & l2 & Hl2 & He2).
  repeat split; try congruence.
  exists (l1 ++ l2). split.
  - rewrite Hl2, Hl1. now rewrite app_assoc.
  - intros Hf. apply Forall_app. split; [auto|]. apply He2. congruence.
Qed.

Lemma grows_eungdi m error it : grows it (eungdi m error it).
Proof.
  unfold eungdi. destruct (fast it && negb error) eqn:E; [apply grows_refl|].
  repeat split. eexists. split; [reflexivity|].
  intros Hf. rewrite Hf in E. simpl in E.
  repeat constructor. simpl. now destruct error.
Qed.

Lemma grows_set_scopes s it : grows it (set_scopes s it).
Proof.
  repeat split. exists []. split; [simpl; now rewrite app_nil_r | constructor].
Qed.

Lemma grows_set_current_line n it : grows it (set_current_line n it).
Proof.
  repeat split. exists []. split; [simpl; now rewrite app_nil_r | constructor].
Qed.

Lemma grows_pop it : grows it (pop_scope it).
Proof.
  unfold pop_scope. destruct (Nat.ltb 1 (List.length (scopes it)));
    [apply grows_set_scopes | apply grows_eungdi].
Qed.

Lemma grows_declare name it : grows it (declare_variable name it).
Proof.
  unfold declare_variable. destruct (frame_has name (current_scope it));
    [apply grows_eungdi | apply grows_set_scopes].
Qed.

Lemma grows_assign name v it : grows it (assign_variable name v it).
Proof.
  unfold assign_variable.
  destruct (assign_nearest name v (rev (scopes it)));
    [apply grows_set_scopes | apply grows_eungdi].
Qed.

Lemma grows_get_variable name it : grows it (snd (get_variable name it)).
Proof.
  unfold get_variable. destruct (lookup_nearest name (rev (scopes it)));
    [apply grows_refl | apply grows_eungdi].
Qed.

Lemma grows_evaluate py e it : grows it (snd (evaluate_expression py e it)).
Proof.
  unfold evaluate_expression.
  destruct (safe_eval py (get_combined_scope it) e);
    [apply grows_refl | apply grows_eungdi].
Qed.

Lemma grows_evaluate_args py args it :
  grows it (snd (evaluate_args py args it)).
Proof.
  revert it. induction args as [|a args IH]; intros it; [apply grows_refl|].
  simpl. pose proof (grows_evaluate py a it) as H1.
  destruct (evaluate_expression py a it) as [v it1].
  pose proof (IH it1) as H2.
  destruct (evaluate_args py args it1) as [vs it2].
  simpl in *. eapply grows_trans; eassumption.
Qed.

Lemma grows_enter_call params closure args it :
  grows it (enter_call params closure args it).
Proof.
  unfold enter_call.
  set (start := set_scopes (closure ++ [[]])
                  (if debug it then eungdi (MCallStart params args) false it
                   else it)).
  assert (H : grows it start).
  { unfold start. eapply grows_trans; [|apply grows_set_scopes].
    destruct (debug it); [apply grows_eungdi | apply grows_refl]. }
  clearbody start. revert start H.
  induction (combine params args) as [|pa pairs IH]; intros start H;
    [exact H|].
  simpl. apply IH. eapply grows_trans; [exact H | apply grows_set_scopes].
Qed.

(** [grows_to it o]: the state an outcome carries has grown from [it]. *)
Lemma grows_interpret_line py l it :
  match final (interpret_line py l it) with
  | Some it' => grows it it'
  | None => True
  end.
Proof.
  destruct l; simpl; try apply grows_eungdi; try apply grows_refl.
  - apply grows_declare.
  - unfold handle_assign.
    pose proof (grows_evaluate py e it) as H.
    destruct (evaluate_expression py e it) as [v it1]. simpl in H.
    destruct v; try exact H;
      (eapply grows_trans; [exact H | apply grows_assign]).
  - unfold handle_output.
    pose proof (grows_get_variable name it) as H.
    destruct (get_variable name it) as [v it1]. simpl in H.
    eapply grows_trans; [exact H | apply grows_eungdi].
  - unfold handle_delete_var.
    destruct (frame_has name (current_scope it)); [|apply grows_eungdi].
    eapply grows_trans; [apply grows_set_scopes | apply grows_eungdi].
  - unfold handle_reset.
    eapply grows_trans; [apply grows_set_scopes | apply grows_eungdi].
  - unfold handle_list_sort.
    pose proof (grows_get_variable name it) as H.
    destruct (get_variable name it) as [v it1]. simpl in H.
    destruct v; simpl;
      try (eapply grows_trans; [exact H | apply grows_eungdi]).
    destruct (py_sorted py items); simpl; [|exact H].
    eapply grows_trans; [exact H|].
    eapply grows_trans; [apply grows_assign | apply grows_eungdi].
Qed.

Section GrowsBody.

Variable py : PyOps.
Variable exec : list line -> nat -> Interpreter -> outcome nat.

Hypothesis exec_grows :
  forall b i it,
    match final (exec b i it) with
    | Some it' => grows it it'
    | None => True
    end.

Lemma grows_exec_after it b i mid :
  grows it mid ->
  match exec b i mid with
  | Done _ it' | Raised _ it' => grows it it'
  | OutOfFuel => True
  end.
Proof.
  intros H. pose proof (exec_grows b i mid) as He.
  destruct (exec b i mid); simpl in He; try exact I;
    eapply grows_trans; eassumption.
Qed.

Lemma grows_process_if lines index it :
  match final (process_if py exec lines index it) with
  | Some it' => grows it it'
  | None => True
  end.
Proof.
  unfold process_if.
  destruct (nth_error lines index) as [[]|]; simpl;
    try apply grows_eungdi.
  pose proof (grows_evaluate py cond it) as H1.
  destruct (evaluate_expression py cond it) as [c it1]. simpl in H1.
  destruct (scan_if _ _ _ _ _ _) as [[i ib] eb].
  assert (H2 : grows it (push_scope it1))
    by (eapply grows_trans; [exact H1 | apply grows_set_scopes]).
  pose proof (grows_exec_after it (if truthy c then ib else eb) 0 _ H2) as H3.
  destruct (exec (if truthy c then ib else eb) 0 (push_scope it1));
    simpl; try exact I; try exact H3.
  eapply grows_trans; [exact H3 | apply grows_pop].
Qed.

Lemma grows_while_loop fuel cond block it :
  match final (while_loop py exec fuel cond block it) with
  | Some it' => grows it it'
  | None => True
  end.
Proof.
  revert it. induction fuel as [|fuel IH]; intros it; [exact I|].
  simpl.
  pose proof (grows_evaluate py cond it) as H1.
  destruct (evaluate_expression py cond it) as [c it1]. simpl in H1.
  destruct (truthy c); [|exact H1].
  assert (H2 : grows it (push_scope it1))
    by (eapply grows_trans; [exact H1 | apply grows_set_scopes]).
  pose proof (grows_exec_after it block 0 _ H2) as H3.
  destruct (exec block 0 (push_scope it1)) as [j it2|s it2|]; [| |exact I].
  - pose proof (IH (pop_scope it2)) as H4.
    destruct (while_loop py exec fuel cond block (pop_scope it2));
      simpl in *; try exact I;
      (eapply grows_trans; [|exact H4]);
      (eapply grows_trans; [exact H3 | apply grows_pop]).
  - destruct s; simpl; try exact H3.
    + eapply grows_trans; [exact H3 | apply grows_pop].
    + pose proof (IH (pop_scope it2)) as H4.
      destruct (while_loop py exec fuel cond block (pop_scope it2));
        simpl in *; try exact I;
        (eapply grows_trans; [|exact H4]);
        (eapply grows_trans; [exact H3 | apply grows_pop]).
Qed.

Lemma grows_process_while fuel lines index it :
  match final (process_while py exec fuel lines index it) with
  | Some it' => grows it it'
  | None => True
  end.
Proof.
  unfold process_while.
  destruct (nth_error lines index) as [[]|]; simpl;
    try apply grows_eungdi.
  destruct (scan_while _ _ _ _) as [i block].
  pose proof (grows_while_loop fuel cond block it) as H.
  destruct (while_loop py exec fuel cond block it); exact H.
Qed.

Lemma grows_for_loop iter_var block items it :
  match final (for_loop exec iter_var block items it) with
  | Some it' => grows it it'
  | None => True
  end.
Proof.
  revert it. induction items as [|item items IH]; intros it;
    [apply grows_refl|].
  simpl.
  assert (H2 : grows it (assign_variable iter_var item
                           (declare_variable iter_var (push_scope it)))).
  { eapply grows_trans; [|apply grows_assign].
    eapply grows_trans; [apply grows_set_scopes | apply grows_declare]. }
  pose proof (grows_exec_after it block 0 _ H2) as H3.
  destruct (exec block 0 _) as [j it2|s it2|]; [| |exact I].
  - pose proof (IH (pop_scope it2)) as H4.
    destruct (for_loop exec iter_var block items (pop_scope it2));
      simpl in *; try exact I;
      (eapply grows_trans; [|exact H4]);
      (eapply grows_trans; [exact H3 | apply grows_pop]).
  - destruct s; simpl; try exact H3.
    + eapply grows_trans; [exact H3 | apply grows_pop].
    + pose proof (IH (pop_scope it2)) as H4.
      destruct (for_loop exec iter_var block items (pop_scope it2));
        simpl in *; try exact I;
        (eapply grows_trans; [|exact H4]);
        (eapply grows_trans; [exact H3 | apply grows_pop]).
Qed.

Lemma grows_process_for lines index it :
  match final (process_for py exec lines index it) with
  | Some it' => grows it it'
  | None => True
  end.
Proof.
  unfold process_for.
  destruct (nth_error lines index) as [[]|]; simpl;
    try apply grows_eungdi.
  pose proof (grows_evaluate py iterable it) as H1.
  destruct (evaluate_expression py iterable it) as [v it1]. simpl in H1.
  destruct (iter_items py v) as [|items|]; simpl;
    [eapply grows_trans; [exact H1 | apply grows_eungdi] | | exact H1].
  destruct (scan_for _ _ _) as [i block].
  pose proof (grows_for_loop iter_var block items it1) as H.
  destruct (for_loop exec iter_var block items it1); simpl in *;
    try exact I; eapply grows_trans; eassumption.
Qed.

Lemma grows_Function_call params block closure args it :
  match final (Function_call exec params block closure args it) with
  | Some it' => grows it it'
  | None => True
  end.
Proof.
  unfold Function_call.
  destruct (negb (Nat.eqb (List.length args) (List.length params)));
    [apply grows_eungdi|].
  pose proof (grows_exec_after it block 0 _
                (grows_enter_call params closure args it)) as H.
  destruct (exec block 0 (enter_call params closure args it))
    as [j it1|s it1|]; [| |exact I].
  - simpl. destruct (debug it1).
    + eapply grows_trans; [exact H|].
      eapply grows_trans; [apply grows_set_scopes | apply grows_eungdi].
    + eapply grows_trans; [exact H | apply grows_set_scopes].
  - destruct s; simpl; try exact H.
    destruct (debug it1).
    + eapply grows_trans; [exact H|].
      eapply grows_trans; [apply grows_set_scopes | apply grows_eungdi].
    + eapply grows_trans; [exact H | apply grows_set_scopes].
Qed.

Lemma grows_process_func_call l it :
  match final (process_func_call py exec l it) with
  | Some it' => grows it it'
  | None => True
  end.
Proof.
  unfold process_func_call. destruct l; simpl; try apply grows_eungdi.
  pose proof (grows_evaluate_args py args it) as H1.
  destruct (evaluate_args py args it) as [vs it1]. simpl in H1.
  pose proof (grows_get_variable name it1) as H2.
  destruct (get_variable name it1) as [fo it2]. simpl in H2.
  assert (H3 : grows it it2) by (eapply grows_trans; eassumption).
  destruct fo; simpl;
    try (eapply grows_trans; [exact H3 | apply grows_eungdi]).
  pose proof (grows_Function_call params block closure vs it2) as H4.
  destruct (Function_call exec params block closure vs it2); simpl in *;
    try exact I; eapply grows_trans; eassumption.
Qed.

End GrowsBody.

Lemma grows_process_func_def lines index it :
  grows it (snd (process_func_def lines index it)).
Proof.
  unfold process_func_def.
  destruct (nth_error lines index) as [[]|]; simpl;
    try apply grows_eungdi.
  destruct (scan_func _ _ _ _) as [i block]. simpl.
  eapply grows_trans; [apply grows_declare | apply grows_assign].
Qed.

Lemma grows_process_return py l it :
  match final (process_return py l it) with
  | Some it' => grows it it'
  | None => True
  end.
Proof.
  unfold process_return. destruct l; simpl; try apply grows_eungdi.
  destruct e as [e|]; [|apply grows_refl].
  pose proof (grows_evaluate py e it) as H.
  destruct (evaluate_expression py e it). exact H.
Qed.

Lemma grows_execute_lines py fuel :
  forall lines i it,
    match final (execute_lines py fuel lines i it) with
    | Some it' => grows it it'
    | None => True
    end.
Proof.
  induction fuel as [|fuel IH]; intros lines i it; [exact I|].
  cbn [execute_lines].
  destruct (nth_error lines i) as [l|]; [|apply grows_refl].
  pose proof (grows_set_current_line (Some (i + 1)) it) as H1.
  revert H1. generalize (set_current_line (Some (i + 1)) it) as it1.
  intros it1 H1.
  assert (Hnext : forall j mid,
             grows it mid ->
             match final (execute_lines py fuel lines j mid) with
             | Some it' => grows it it'
             | None => True
             end).
  { intros j mid Hm. pose proof (IH lines j mid) as H.
    destruct (execute_lines py fuel lines j mid); simpl in *; try exact I;
      eapply grows_trans; eassumption. }
  assert (Hsimple :
            match final
                    (match interpret_line py l it1 with
                     | Done _ it2 => execute_lines py fuel lines (S i) it2
                     | Raised s it2 => Raised s it2
                     | OutOfFuel => OutOfFuel
                     end) with
            | Some it' => grows it it'
            | None => True
            end).
  { pose proof (grows_interpret_line py l it1) as H.
    destruct (interpret_line py l it1); simpl in *; try exact I.
    - apply Hnext. eapply grows_trans; eassumption.
    - eapply grows_trans; eassumption. }
  destruct l; try exact Hsimple.
  - pose proof (grows_process_if py _ IH lines i it1) as H.
    destruct (process_if py (execute_lines py fuel) lines i it1);
      simpl in *; try exact I.
    + apply Hnext. eapply grows_trans; eassumption.
    + eapply grows_trans; eassumption.
  - pose proof (grows_process_while py _ IH fuel lines i it1) as H.
    destruct (process_while py (execute_lines py fuel) fuel lines i it1);
      simpl in *; try exact I.
    + apply Hnext. eapply grows_trans; eassumption.
    + eapply grows_trans; eassumption.
  - pose proof (grows_process_for py _ IH lines i it1) as H.
    destruct (process_for py (execute_lines py fuel) lines i it1);
      simpl in *; try exact I.
    + apply Hnext. eapply grows_trans; eassumption.
    + eapply grows_trans; eassumption.
  - pose proof (grows_process_func_def lines i it1) as H.
    destruct (process_func_def lines i it1) as [j it2]. simpl in H.
    apply Hnext. eapply grows_trans; eassumption.
  - pose proof (grows_process_func_call py _ IH (LFuncCall name args) it1)
      as H.
    destruct (process_func_call py (execute_lines py fuel)
                (LFuncCall name args) it1); simpl in *; try exact I.
    + apply Hnext. eapply grows_trans; eassumption.
    + eapply grows_trans; eassumption.
  - exact H1.
  - exact H1.
  - pose proof (grows_process_return py (LReturn e) it1) as H.
    destruct (process_return py (LReturn e) it1) as [u it2|s it2|];
      simpl in *; try exact I.
    + apply Hnext. eapply grows_trans; [|apply grows_eungdi].
      eapply grows_trans; eassumption.
    + eapply grows_trans; eassumption.
Qed.

(** X16.  Whatever the program, a run never touches the two flags and
    never removes or rewrites an entry of the log: the log of the final
    state is the log of the initial one with entries added at its end.
    In fast mode every added entry is an error report. *)
Theorem run_only_appends_to_log :
  forall (py : PyOps) (fuel : nat) (program : list line) (it : Interpreter),
    match final (interpret_program py fuel program it) with
    | Some it' => grows it it'
    | None => True
    end.
Proof.
  intros py fuel program it. unfold interpret_program.
  pose proof (grows_execute_lines py fuel program 0 it) as H.
  destruct (execute_lines py fuel program 0 it) as [j it1|s it1|];
    simpl in *; [| |exact I].
  - eapply grows_trans; [exact H | apply grows_set_current_line].
  - destruct s; simpl; try exact H;
      (eapply grows_trans; [exact H|]);
      (eapply grows_trans; [apply grows_eungdi
                           | apply grows_set_current_line]).
Qed.

(** ** Scope balance of programs that raise no signal of their own *)

Lemma depth_eungdi m error it : depth (eungdi m error it) = depth it.
Proof. unfold depth. now rewrite scopes_eungdi. Qed.

Lemma depth_push it : depth (push_scope it) = S (depth it).
Proof. unfold depth. simpl. rewrite length_app. simpl. lia. Qed.

Lemma depth_pop it : 1 < depth it -> depth (pop_scope it) = pred (depth it).
Proof.
  unfold depth, pop_scope. intros H.
  apply Nat.ltb_lt in H. rewrite H. simpl. apply length_removelast_frames.
Qed.

Lemma depth_update_current f it :
  0 < depth it -> depth (update_current_scope f it) = depth it.
Proof.
  unfold depth, update_current_scope. simpl.
  rewrite length_app, length_removelast_frames. simpl. lia.
Qed.

Lemma depth_declare name it :
  0 < depth it -> depth (declare_variable name it) = depth it.
Proof.
  intros H. unfold declare_variable.
  destruct (frame_has name (current_scope it));
    [apply depth_eungdi | now apply depth_update_current].
Qed.

Lemma depth_assign name v it : depth (assign_variable name v it) = depth it.
Proof.
  unfold assign_variable, depth.
  destruct (assign_nearest name v (rev (scopes it))) as [rs|] eqn:E.
  - simpl. rewrite length_rev, (assign_nearest_length _ _ _ _ E).
    now rewrite length_rev.
  - now rewrite scopes_eungdi.
Qed.

Lemma depth_evaluate py e it :
  depth (snd (evaluate_expression py e it)) = depth it.
Proof. unfold depth. now rewrite scopes_evaluate_expression. Qed.

Lemma depth_get_variable name it :
  depth (snd (get_variable name it)) = depth it.
Proof.
  unfold get_variable. destruct (lookup_nearest name (rev (scopes it)));
    [reflexivity | apply depth_eungdi].
Qed.

Lemma calm_interpret_line py l it :
  calm l = true ->
  0 < depth it ->
  match interpret_line py l it with
  | Done _ it' => depth it' = depth it
  | Raised s _ => s = TypeError
  | OutOfFuel => False
  end.
Proof.
  intros Hc Hd.
  destruct l; try discriminate; simpl;
    try apply depth_eungdi; try reflexivity.
  - now apply depth_declare.
  - unfold handle_assign.
    pose proof (depth_evaluate py e it) as H.
    destruct (evaluate_expression py e it) as [v it1]. simpl in H.
    destruct v; try exact H; now rewrite depth_assign.
  - unfold handle_output.
    pose proof (depth_get_variable name it) as H.
    destruct (get_variable name it) as [v it1]. simpl in H.
    now rewrite depth_eungdi.
  - unfold handle_delete_var.
    destruct (frame_has name (current_scope it)); [|apply depth_eungdi].
    rewrite depth_eungdi. now apply depth_update_current.
  - unfold handle_list_sort.
    pose proof (depth_get_variable name it) as H.
    destruct (get_variable name it) as [v it1]. simpl in H.
    destruct v; try (now rewrite depth_eungdi).
    destruct (py_sorted py items); [|reflexivity].
    now rewrite depth_eungdi, depth_assign.
Qed.

Section Blocks.

Variable P : line -> Prop.

Lemma Forall_snoc (b : list line) l : Forall P b -> P l -> Forall P (b ++ [l]).
Proof. intros Hb Hl. apply Forall_app. split; [exact Hb | now constructor]. Qed.

Lemma scan_if_Forall rest i in_else n ib eb :
  Forall P rest -> Forall P ib -> Forall P eb ->
  Forall P (snd (fst (scan_if rest i in_else n ib eb)))
  /\ Forall P (snd (scan_if rest i in_else n ib eb)).
Proof.
  intros Hr. revert i in_else n ib eb.
  induction Hr as [|l rest Hl _ IH]; intros i in_else n ib eb Hi He;
    [now split|].
  simpl.
  destruct (is_if l).
  { destruct in_else; apply IH; auto using Forall_snoc. }
  destruct (is_end_if l).
  { destruct n; [now split|].
    destruct in_else; apply IH; auto using Forall_snoc. }
  destruct (is_else l && Nat.eqb n 0); [now apply IH|].
  destruct in_else; apply IH; auto using Forall_snoc.
Qed.

Lemma scan_while_Forall rest i n block :
  Forall P rest -> Forall P block ->
  Forall P (snd (scan_while rest i n block)).
Proof.
  intros Hr. revert i n block.
  induction Hr as [|l rest Hl _ IH]; intros i n block Hb; [exact Hb|].
  simpl.
  destruct (is_while l); [apply IH; auto using Forall_snoc|].
  destruct (is_end_while l); [|apply IH; auto using Forall_snoc].
  destruct n; [exact Hb | apply IH; auto using Forall_snoc].
Qed.

Lemma scan_for_Forall rest i block :
  Forall P rest -> Forall P block ->
  Forall P (snd (scan_for rest i block)).
Proof.
  intros Hr. revert i block.
  induction Hr as [|l rest Hl _ IH]; intros i block Hb; [exact Hb|].
  simpl. destruct (is_end_for l); [exact Hb|].
  apply IH; auto using Forall_snoc.
Qed.

Lemma Forall_skipn_lines n (ls : list line) :
  Forall P ls -> Forall P (skipn n ls).
Proof.
  revert ls. induction n as [|n IH]; intros ls H; [exact H|].
  destruct ls as [|l ls]; [constructor|]. simpl. apply IH. now inversion H.
Qed.

End Blocks.

Section CalmBody.

Variable py : PyOps.
Variable exec : list line -> nat -> Interpreter -> outcome nat.

Hypothesis exec_balanced :
  forall b i it,
    Forall (fun l => calm l = true) b ->
    0 < depth it ->
    match exec b i it with
    | Done _ it' => depth it' = depth it
    | Raised s _ => s = TypeError
    | OutOfFuel => True
    end.

Lemma calm_process_if lines index it :
  Forall (fun l => calm l = true) lines ->
  0 < depth it ->
  match process_if py exec lines index it with
  | Done _ it' => depth it' = depth it
  | Raised s _ => s = TypeError
  | OutOfFuel => True
  end.
Proof.
  intros Hl Hd. unfold process_if.
  destruct (nth_error lines index) as [[]|]; try apply depth_eungdi.
  pose proof (depth_evaluate py cond it) as H1.
  destruct (evaluate_expression py cond it) as [c it1]. simpl in H1.
  pose proof (scan_if_Forall _ (skipn (S index) lines) (S index) false 0 [] []
                (Forall_skipn_lines _ _ _ Hl) (Forall_nil _) (Forall_nil _))
    as [Hib Heb].
  destruct (scan_if _ _ _ _ _ _) as [[i ib] eb]. simpl in Hib, Heb.
  assert (Hb : Forall (fun l => calm l = true)
                 (if truthy c then ib else eb))
    by (destruct (truthy c); assumption).
  assert (Hp : 0 < depth (push_scope it1)) by (rewrite depth_push; lia).
  pose proof (exec_balanced _ 0 _ Hb Hp) as H2.
  destruct (exec (if truthy c then ib else eb) 0 (push_scope it1));
    try exact H2.
  rewrite depth_push in H2. rewrite depth_pop; lia.
Qed.

Lemma calm_while_loop fuel cond block it :
  Forall (fun l => calm l = true) block ->
  0 < depth it ->
  match while_loop py exec fuel cond block it with
  | Done _ it' => depth it' = depth it
  | Raised s _ => s = TypeError
  | OutOfFuel => True
  end.
Proof.
  intros Hb. revert it. induction fuel as [|fuel IH]; intros it Hd;
    [exact I|].
  simpl.
  pose proof (depth_evaluate py cond it) as H1.
  destruct (evaluate_expression py cond it) as [c it1]. simpl in H1.
  destruct (truthy c); [|exact H1].
  assert (Hp : 0 < depth (push_scope it1)) by (rewrite depth_push; lia).
  pose proof (exec_balanced _ 0 _ Hb Hp) as H2.
  destruct (exec block 0 (push_scope it1)) as [j it2|s it2|];
    [|now subst s|exact I].
  rewrite depth_push in H2.
  assert (H3 : depth (pop_scope it2) = depth it)
    by (rewrite depth_pop; lia).
  assert (H4 : 0 < depth (pop_scope it2)) by lia.
  pose proof (IH _ H4) as H5.
  destruct (while_loop py exec fuel cond block (pop_scope it2));
    try exact H5. lia.
Qed.

Lemma calm_for_loop iter_var block items it :
  Forall (fun l => calm l = true) block ->
  0 < depth it ->
  match for_loop exec iter_var block items it with
  | Done _ it' => depth it' = depth it
  | Raised s _ => s = TypeError
  | OutOfFuel => True
  end.
Proof.
  intros Hb. revert it. induction items as [|item items IH]; intros it Hd;
    [reflexivity|].
  simpl.
  set (it3 := assign_variable iter_var item
                (declare_variable iter_var (push_scope it))).
  assert (H3 : depth it3 = S (depth it)).
  { unfold it3. rewrite depth_assign, depth_declare, depth_push;
      [reflexivity | rewrite depth_push; lia]. }
  assert (Hp : 0 < depth it3) by lia.
  pose proof (exec_balanced _ 0 _ Hb Hp) as H2.
  destruct (exec block 0 it3) as [j it4|s it4|]; [|now subst s|exact I].
  assert (H4 : depth (pop_scope it4) = depth it)
    by (rewrite depth_pop; lia).
  assert (H5 : 0 < depth (pop_scope it4)) by lia.
  pose proof (IH _ H5) as H6.
  destruct (for_loop exec iter_var block items (pop_scope it4));
    try exact H6. lia.
Qed.

End CalmBody.

Lemma calm_execute_lines py fuel :
  forall lines i it,
    Forall (fun l => calm l = true) lines ->
    0 < depth it ->
    match execute_lines py fuel lines i it with
    | Done _ it' => depth it' = depth it
    | Raised s _ => s = TypeError
    | OutOfFuel => True
    end.
Proof.
  induction fuel as [|fuel IH]; intros lines i it Hl Hd; [exact I|].
  cbn [execute_lines].
  destruct (nth_error lines i) as [l|] eqn:El; [|reflexivity].
  assert (Hc : calm l = true).
  { apply nth_error_In in El. rewrite Forall_forall in Hl. now apply Hl. }
  assert (H1 : depth (set_current_line (Some (i + 1)) it) = depth it)
    by reflexivity.
  revert H1. generalize (set_current_line (Some (i + 1)) it) as it1.
  intros it1 H1.
  assert (Hd1 : 0 < depth it1) by lia.
  assert (Hnext : forall j mid,
             depth mid = depth it ->
             match execute_lines py fuel lines j mid with
             | Done _ it' => depth it' = depth it
             | Raised s _ => s = TypeError
             | OutOfFuel => True
             end).
  { intros j mid Hm. assert (Hp : 0 < depth mid) by lia.
    pose proof (IH lines j mid Hl Hp) as H.
    destruct (execute_lines py fuel lines j mid); try exact H. lia. }
  assert (Hsimple :
            match
              match interpret_line py l it1 with
              | Done _ it2 => execute_lines py fuel lines (S i) it2
              | Raised s it2 => Raised s it2
              | OutOfFuel => OutOfFuel
              end
            with
            | Done _ it' => depth it' = depth it
            | Raised s _ => s = TypeError
            | OutOfFuel => True
            end).
  { pose proof (calm_interpret_line py l it1 Hc Hd1) as H2.
    destruct (interpret_line py l it1); try exact H2; try exact I.
    apply Hnext. lia. }
  destruct l; try discriminate; try exact Hsimple.
  - pose proof (calm_process_if py _ IH lines i it1 Hl Hd1) as H.
    destruct (process_if py (execute_lines py fuel) lines i it1);
      try exact H. apply Hnext. lia.
  - unfold process_while. rewrite El.
    pose proof (scan_while_Forall _ (skipn (S i) lines) (S i) 0 []
                  (Forall_skipn_lines _ _ _ Hl) (Forall_nil _)) as Hb.
    destruct (scan_while _ _ _ _) as [j block]. simpl in Hb.
    pose proof (calm_while_loop py _ IH fuel cond block it1 Hb Hd1) as H.
    destruct (while_loop py (execute_lines py fuel) fuel cond block it1);
      try exact H. apply Hnext. lia.
  - unfold process_for. rewrite El.
    pose proof (depth_evaluate py iterable it1) as H2.
    destruct (evaluate_expression py iterable it1) as [v it2]. simpl in H2.
    destruct (iter_items py v) as [|items|];
      [apply Hnext; rewrite depth_eungdi; lia | | reflexivity].
    pose proof (scan_for_Forall _ (skipn (S i) lines) (S i) []
                    (Forall_skipn_lines _ _ _ Hl) (Forall_nil _)) as Hb.
    destruct (scan_for _ _ _) as [j block]. simpl in Hb.
    assert (Hd2 : 0 < depth it2) by lia.
    pose proof (calm_for_loop _ IH iter_var block items it2 Hb Hd2) as H.
    destruct (for_loop (execute_lines py fuel) iter_var block items it2);
      try exact H. apply Hnext. lia.
  - unfold process_func_def. rewrite El.
    destruct (scan_func _ _ _ _) as [j block].
    apply Hnext. rewrite depth_assign, depth_declare; lia.
Qed.



(** ** Comparisons and displays *)

Lemma eval_compare_chain py variables l ops cs :
  _eval_node py variables (Compare l ops cs)
  = (left <- _eval_node py variables l ;;
     eval_chain py variables cs ops left).
Proof. reflexivity. Qed.

Lemma eval_chain_returns_bool py variables cs :
  forall ops left v,
    eval_chain py variables cs ops left = Ok v -> exists b, v = VBool b.
Proof.
  induction cs as [|c cs IH]; intros ops left v.
  - destruct ops; simpl; intros H; injection H as <-; eauto.
  - destruct ops as [|op ops]; simpl.
    { intros H. injection H as <-. eauto. }
    destruct (_eval_node py variables c) as [comp|]; simpl; [|discriminate].
    destruct (allowed_compare_ops op); [|discriminate].
    destruct (py_compare py op left comp) as [r|]; simpl; [|discriminate].
    destruct (truthy r); [apply IH|].
    intros H. injection H as <-. eauto.
Qed.

(** X18.  Comparison chains.  [a op b rest...] compares [a] with [b];
    when that comparison is falsy the chain is [False] and nothing after
    [b] is evaluated; when it is truthy the chain has the value of
    [b rest...].  Whatever a comparison returns is a boolean. *)
Theorem comparison_chain_is_pairwise :
  forall (py : PyOps) (variables : frame) (l c : expr) (op : cmpop)
         (ops : list cmpop) (cs : list expr) (a b r : value),
    _eval_node py variables l = Ok a ->
    _eval_node py variables c = Ok b ->
    allowed_compare_ops op = true ->
    py_compare py op a b = Some r ->
    _eval_node py variables (Compare l (op :: ops) (c :: cs))
    = (if truthy r then _eval_node py variables (Compare c ops cs)
       else Ok (VBool false))
    /\ forall v,
        _eval_node py variables (Compare l (op :: ops) (c :: cs)) = Ok v ->
        exists flag, v = VBool flag.
Proof.
  intros py variables l c op ops cs a b r Hl Hc Hop Hr.
  split.
  - rewrite !eval_compare_chain, Hl, Hc. cbn [bind eval_chain].
    rewrite Hc. cbn [bind]. rewrite Hop, Hr. reflexivity.
  - intros v. rewrite eval_compare_chain, Hl. cbn [bind].
    apply eval_chain_returns_bool.
Qed.

Lemma comparison_chain_is_pairwise_witness :
  _eval_node py_core [] (Compare (int 1) [Lt; Lt] [int 5; int 3])
  = (if truthy (VBool true)
     then _eval_node py_core [] (Compare (int 5) [Lt] [int 3])
     else Ok (VBool false))
  /\ forall v,
      _eval_node py_core [] (Compare (int 1) [Lt; Lt] [int 5; int 3]) = Ok v ->
      exists flag, v = VBool flag.
Proof.
  apply (comparison_chain_is_pairwise py_core [] (int 1) (int 5) Lt [Lt]
           [int 3] (VInt 1) (VInt 5) (VBool true));
    reflexivity.
Defined.

Lemma eval_each_Forall2 py variables es vs :
  eval_each py variables es = Ok vs <->
  Forall2 (fun e v => _eval_node py variables e = Ok v) es vs.
Proof.
  revert vs. induction es as [|e es IH]; intros vs; simpl.
  - split.
    + intros H. injection H as <-. constructor.
    + intros H. inversion H. reflexivity.
  - split.
    + destruct (_eval_node py variables e) as [x|] eqn:E; simpl;
        [|discriminate].
      destruct (eval_each py variables es) as [xs|] eqn:Es; simpl;
        [|discriminate].
      intros H. injection H as <-. constructor; [exact E|]. now apply IH.
    + intros H. inversion H as [|? v ? vs' He Hes]; subst.
      rewrite He. simpl. apply IH in Hes. rewrite Hes. reflexivity.
Qed.

(** X19.  Displays.  A list display evaluates to a list exactly when
    every element evaluates, and the list then holds the elements'
    values in order; the same for a tuple display.  One element that
    raises makes the whole display raise. *)
Theorem display_evaluates_elementwise :
  forall (py : PyOps) (variables : frame) (es : list expr) (v : value),
    (_eval_node py variables (EList es) = Ok v <->
     exists vs, v = VList vs
                /\ Forall2 (fun e x => _eval_node py variables e = Ok x) es vs)
    /\ (_eval_node py variables (ETuple es) = Ok v <->
        exists vs, v = VTuple vs
                   /\ Forall2 (fun e x => _eval_node py variables e = Ok x)
                        es vs).
Proof.
  intros py variables es v. split.
  - rewrite eval_list_each. split.
    + destruct (eval_each py variables es) as [vs|] eqn:E; simpl;
        [|discriminate].
      intros H. injection H as <-. exists vs. split; [reflexivity|].
      now apply eval_each_Forall2.
    + intros (vs & -> & H). apply eval_each_Forall2 in H. now rewrite H.
  - rewrite eval_tuple_each. split.
    + destruct (eval_each py variables es) as [vs|] eqn:E; simpl;
        [|discriminate].
      intros H. injection H as <-. exists vs. split; [reflexivity|].
      now apply eval_each_Forall2.
    + intros (vs & -> & H). apply eval_each_Forall2 in H. now rewrite H.
Qed.

(** ** Loops, branches and deletion *)



(** X21.  An [if] runs one branch and resumes after its end-if.  With
    both branches closed, the guard is evaluated once, the then-lines are
    run in a fresh scope when it is truthy and the else-lines otherwise,
    and execution resumes at the line after the end-if.  A guard that
    fails to evaluate is reported and counts as falsy: the else-lines
    run. *)
Theorem if_runs_one_branch :
  forall (py : PyOps)
         (exec : list line -> nat -> Interpreter -> outcome nat)
         (cond : source) (t e rest : list line) (it : Interpreter),
    nesting_if t 0 = Some 0 ->
    nesting_if e 0 = Some 0 ->
    process_if py exec (LIf cond :: t ++ LElse :: e ++ LEndIf :: rest) 0 it
    = (let (c, it1) := evaluate_expression py cond it in
       match exec (if truthy c then t else e) 0 (push_scope it1) with
       | Done _ it3 =>
           Done (List.length t + List.length e + 3) (pop_scope it3)
       | Raised s it3 => Raised s it3
       | OutOfFuel => OutOfFuel
       end)
    /\ (raises (safe_eval py (get_combined_scope it) cond) ->
        truthy (fst (evaluate_expression py cond it)) = false).
Proof.
  intros py exec cond t e rest it Ht He. split.
  - unfold process_if. cbn [nth_error skipn].
    destruct (evaluate_expression py cond it) as [c it1].
    rewrite (scan_if_walk _ _ _ _ _ _ _ _ Ht).
    cbn [scan_if is_if is_end_if is_else andb Nat.eqb].
    rewrite (scan_if_walk _ _ _ _ _ _ _ _ He).
    cbn [scan_if is_if is_end_if app].
    replace (S (S (1 + List.length t) + List.length e))
      with (List.length t + List.length e + 3) by lia.
    reflexivity.
  - intros [ex H]. unfold evaluate_expression. now rewrite H.
Qed.

Lemma if_runs_one_branch_witness :
  process_if py_core (execute_lines py_core 5)
    (LIf (src (Name "nowhere")) :: [LPrint "then"] ++ LElse
       :: [LPrint "else"] ++ LEndIf :: [LPrint "after"]) 0 (init false false)
  = (let (c, it1) :=
       evaluate_expression py_core (src (Name "nowhere")) (init false false)
     in
     match execute_lines py_core 5
             (if truthy c then [LPrint "then"] else [LPrint "else"]) 0
             (push_scope it1) with
     | Done _ it3 =>
         Done (List.length [LPrint "then"] + List.length [LPrint "else"] + 3)
           (pop_scope it3)
     | Raised s it3 => Raised s it3
     | OutOfFuel => OutOfFuel
     end)
  /\ (raises (safe_eval py_core (get_combined_scope (init false false))
                (src (Name "nowhere"))) ->
      truthy (fst (evaluate_expression py_core (src (Name "nowhere"))
                     (init false false))) = false).
Proof.
  apply (if_runs_one_branch py_core (execute_lines py_core 5)
           (src (Name "nowhere")) [LPrint "then"] [LPrint "else"]
           [LPrint "after"] (init false false));
    reflexivity.
Defined.

Lemma frame_has_del name f :
  well_formed f -> frame_has name (frame_del name f) = false.
Proof.
  unfold well_formed. induction f as [|[k w] f IH]; simpl; [reflexivity|].
  intros H. inversion H as [|? ? Hk Hf]; subst.
  destruct (String.eqb k name) eqn:E.
  - apply String.eqb_eq in E. subst k. now apply frame_has_not_in.
  - simpl. rewrite E. now apply IH.
Qed.

Lemma frame_get_del_other name other f :
  name <> other -> frame_get other (frame_del name f) = frame_get other f.
Proof.
  intros Hne. induction f as [|[k w] f IH]; simpl; [reflexivity|].
  destruct (String.eqb k name) eqn:E.
  - apply String.eqb_eq in E. subst k.
    apply String.eqb_neq in Hne. now rewrite Hne.
  - simpl. now rewrite IH.
Qed.

(** X22.  Deleting a variable removes it from the current scope only.
    When the current scope holds the name, the name afterwards reads as
    whatever the frames below bind it to, or as undeclared; every other
    name reads as before.  When the current scope does not hold it,
    nothing is deleted, also if an outer frame binds the name, and the
    error is reported. *)
Theorem delete_uncovers_outer_binding :
  forall (it : Interpreter) (x : string),
    well_formed (current_scope it) ->
    if frame_has x (current_scope it) then
      lookup_nearest x (rev (scopes (handle_delete_var x it)))
      = lookup_nearest x (tl (rev (scopes it)))
      /\ (forall other, x <> other ->
            lookup_nearest other (rev (scopes (handle_delete_var x it)))
            = lookup_nearest other (rev (scopes it)))
    else handle_delete_var x it = eungdi (ENotInCurrentScope x) true it.
Proof.
  intros it x Hwf. unfold handle_delete_var.
  destruct (frame_has x (current_scope it)) eqn:E; [|reflexivity].
  rewrite scopes_eungdi, rev_scopes_update_current.
  rewrite current_scope_rev in *.
  destruct (rev (scopes it)) as [|cur below]; [discriminate|].
  cbn [hd tl lookup_nearest] in *. split.
  - now rewrite frame_has_del.
  - intros other Hne.
    rewrite !frame_has_as_get, frame_get_del_other by exact Hne.
    reflexivity.
Qed.

Lemma delete_uncovers_outer_binding_witness :
  let it :=
    set_scopes [[("x", VInt 1)]; [("y", VInt 0); ("x", VInt 2)]]
      (init false false) in
  if frame_has "x" (current_scope it) then
    lookup_nearest "x" (rev (scopes (handle_delete_var "x" it)))
    = lookup_nearest "x" (tl (rev (scopes it)))
    /\ (forall other, "x" <> other ->
          lookup_nearest other (rev (scopes (handle_delete_var "x" it)))
          = lookup_nearest other (rev (scopes it)))
  else handle_delete_var "x" it = eungdi (ENotInCurrentScope "x") true it.
Proof.
  apply (delete_uncovers_outer_binding
           (set_scopes [[("x", VInt 1)]; [("y", VInt 0); ("x", VInt 2)]]
              (init false false)) "x").
  repeat constructor; simpl; intuition discriminate.
Defined.

(** ** Arguments of a call *)

Lemma evaluate_value_by_scopes py e it it' :
  scopes it' = scopes it ->
  fst (evaluate_expression py e it') = fst (evaluate_expression py e it).
Proof.
  intros H. unfold evaluate_expression, get_combined_scope. rewrite H.
  destruct (safe_eval py (concat (rev (scopes it))) e); reflexivity.
Qed.

(** X23.  Arguments.  The argument expressions of a call are evaluated
    one by one in the caller's scope, which none of them changes: there
    are as many values as expressions, each the value its expression has
    on the stack as it was before the call, and an expression that fails
    is reported and passed as [None]. *)
Theorem arguments_are_evaluated_in_caller_scope :
  forall (py : PyOps) (args_expr : list source) (it : Interpreter),
    let values := fst (evaluate_args py args_expr it) in
    let after := snd (evaluate_args py args_expr it) in
    List.length values = List.length args_expr
    /\ scopes after = scopes it
    /\ Forall2 (fun arg v => v = fst (evaluate_expression py arg it))
         args_expr values
    /\ Forall2 (fun arg v =>
                  raises (safe_eval py (get_combined_scope it) arg) ->
                  v = VNone)
         args_expr values.
Proof.
  intros py args_expr.
  induction args_expr as [|arg rest IH]; intros it; cbv zeta.
  - repeat split; constructor.
  - cbn [evaluate_args].
    pose proof (scopes_evaluate_expression py arg it) as Hs.
    pose proof (eq_refl (fst (evaluate_expression py arg it))) as Hv.
    destruct (evaluate_expression py arg it) as [v it1] eqn:E.
    cbn [fst snd] in Hs, Hv.
    specialize (IH it1). cbv zeta in IH.
    destruct (evaluate_args py rest it1) as [vs it2].
    cbn [fst snd] in *. destruct IH as (Hlen & Hsc & Hall & Hfail).
    repeat split.
    + simpl. now rewrite Hlen.
    + congruence.
    + constructor; [now rewrite E|].
      eapply Forall2_impl; [|exact Hall]. intros a w ->.
      now apply evaluate_value_by_scopes.
    + constructor.
      * intros [ex Hex]. unfold evaluate_expression in E.
        rewrite Hex in E. now injection E as <- _.
      * eapply Forall2_impl; [|exact Hfail]. intros a w Hw Hr.
        apply Hw. unfold get_combined_scope in *. now rewrite Hs.
Qed.
